(** * Image filters of [tarea1_pdi.py]

    A shallow embedding of the six filter functions of the application
    (mosaic, grayscale, high contrast, negative, channel isolation,
    brightness) and the properties stated about them.

    Conventions of the embedding:
    - a Python [int] is a [Z]; [//] on a positive divisor is [Z.div];
    - a Python [float] is a binary64 value, Rocq's primitive [float];
    - a PIL image in mode RGB is a record holding its size and its rows of
      pixels; the pixel access object returned by [load()] is read with
      [getpixel] and written with [putpixel], which saturates each
      component it stores to the 8 bits of a band;
    - a Python exception is [None] in the option monad; the loops are
      folds that thread the image being written. *)

From Stdlib Require Import ZArith Lia Floats.
From Stdlib Require QArith Qround.
From stdpp Require Import base option list strings gmap.

Open Scope Z_scope.

(** The decimal literals [0.3], [0.7] and [0.1] of the source are read, as
    Python reads them, as the nearest binary64 values. *)
#[local] Set Warnings "-inexact-float".

(** ** Numbers *)

Module PyNum.

(** [float(z)]: the conversion Python applies to an [int] operand of a
    mixed [float * int] product (round to nearest, ties to even). *)
Definition float_of_int (z : Z) : float :=
  SF2Prim (binary_normalize prec emax z 0 false).

(** [int(x)] on a float: truncation toward zero; infinities and NaN
    raise. *)
Definition int_of_float (x : float) : option Z :=
  match Prim2SF x with
  | S754_zero _ => Some 0
  | S754_finite s m e =>
      let a := if 0 <=? e then Z.pos m * 2 ^ e else Z.pos m / 2 ^ (- e) in
      Some (if s then - a else a)
  | _ => None
  end.

(** The mathematical floor of a finite float (what [math.floor] returns);
    it is the comparison point for [int_of_float]. *)
Definition floor_of_float (x : float) : option Z :=
  match Prim2SF x with
  | S754_zero _ => Some 0
  | S754_finite s m e =>
      let n := if s then Z.neg m else Z.pos m in
      Some (if 0 <=? e then n * 2 ^ e else n / 2 ^ (- e))
  | _ => None
  end.

(** [a // b] on integers: floor division, [ZeroDivisionError] on 0. *)
Definition floordiv (a b : Z) : option Z :=
  if b =? 0 then None else Some (a / b).

(** [max(0, min(255, v))]. *)
Definition clamp (v : Z) : Z := Z.max 0 (Z.min 255 v).

End PyNum.

Import PyNum.

(** ** Images *)

Definition pixel : Type := Z * Z * Z.

Record Image : Type := mkImage {
  width : nat;
  height : nat;
  rows : list (list pixel)
}.

(** The shape every PIL image has: [height] rows of [width] pixels. *)
Definition image_shape (im : Image) : Prop :=
  length (rows im) = height im ∧
  Forall (λ row, length row = width im) (rows im).

(** An 8-bit sample. *)
Definition sample (v : Z) : Prop := 0 <= v <= 255.

Definition pixel_in_range (p : pixel) : Prop :=
  let '(r, g, b) := p in sample r ∧ sample g ∧ sample b.

Definition image_in_range (im : Image) : Prop :=
  Forall (Forall pixel_in_range) (rows im).

(** A PIL image in mode RGB: it has its shape and it holds 8-bit samples,
    since no other value can be stored in it. *)
Definition wf_image (im : Image) : Prop :=
  image_shape im ∧ image_in_range im.

(** The store of an 8-bit band saturates: a component written below 0 is
    stored as 0, one written above 255 as 255. *)
Definition clip8 (v : Z) : Z :=
  if v <=? 0 then 0 else if v <? 256 then v else 255.

Definition store_pixel (p : pixel) : pixel :=
  let '(r, g, b) := p in (clip8 r, clip8 g, clip8 b).

(** [pixels[x, y]] as an expression; [None] is the [IndexError] outside
    the image. *)
Definition getpixel (im : Image) (x y : nat) : option pixel :=
  row ← rows im !! y; row !! x.

(** [pixels[x, y] = p]: the pixel stored is [p] with each component
    saturated to 8 bits; [None] is the [IndexError] outside the image. *)
Definition putpixel (im : Image) (x y : nat) (p : pixel) : option Image :=
  row ← rows im !! y;
  _ ← row !! x;
  Some (mkImage (width im) (height im)
          (<[y := <[x := store_pixel p]> row]> (rows im))).

(** ** Loops *)

(** [for i in l: s = body(i, s)], stopping at the first exception. *)
Fixpoint for_each {St : Type} (l : list nat) (body : nat → St → option St)
    (s : St) : option St :=
  match l with
  | [] => Some s
  | i :: l' => s' ← body i s; for_each l' body s'
  end.

(** [range(n)] and [range(a, b)]. *)
Definition range (n : nat) : list nat := seq 0 n.
Definition range2 (a b : nat) : list nat := seq a (b - a).

Fixpoint range_from (fuel start stop step : nat) : list nat :=
  match fuel with
  | O => []
  | S fuel' =>
      if (start <? stop)%nat
      then start :: range_from fuel' (start + step) stop step
      else []
  end.

(** [range(start, stop, step)] for a non-negative step; a zero step is the
    [ValueError] Python raises.  At most [stop] values are produced, so
    [stop] is enough fuel. *)
Definition range3 (start stop step : nat) : option (list nat) :=
  if (step =? 0)%nat then None else Some (range_from stop start stop step).

(** ** The filters *)

(** Lines 24-34 of [mosaic_filter]: the channel sums and the pixel count of
    the block whose corner is [(x, y)]. *)
Definition block_sums (pixels_original : Image) (w h x y block_size : nat)
    : option (Z * Z * Z * Z) :=
  for_each (range2 y (Nat.min (y + block_size) h))
    (λ by_ acc,
       for_each (range2 x (Nat.min (x + block_size) w))
         (λ bx '(sum_r, sum_g, sum_b, count),
            '(r, g, b) ← getpixel pixels_original bx by_;
            Some (sum_r + r, sum_g + g, sum_b + b, count + 1))
         acc)
    (0, 0, 0, 0).

(** Lines 41-43 of [mosaic_filter]: the block is painted with one colour. *)
Definition paint_block (pixels_mosaic : Image) (w h x y block_size : nat)
    (colour : pixel) : option Image :=
  for_each (range2 y (Nat.min (y + block_size) h))
    (λ by_ image,
       for_each (range2 x (Nat.min (x + block_size) w))
         (λ bx image, putpixel image bx by_ colour)
         image)
    pixels_mosaic.

(** Lines 24-43 of [mosaic_filter]: the body of the two outer loops, on
    the block whose corner is [(x, y)]. *)
Definition mosaic_block (pixels_original : Image) (w h block_size x y : nat)
    (pixels_mosaic : Image) : option Image :=
  '(sum_r, sum_g, sum_b, count) ←
    block_sums pixels_original w h x y block_size;
  avg_r ← floordiv sum_r count;
  avg_g ← floordiv sum_g count;
  avg_b ← floordiv sum_b count;
  paint_block pixels_mosaic w h x y block_size (avg_r, avg_g, avg_b).

Definition mosaic_filter (original_image : Image) (block_size : nat)
    : option Image :=
  let image := original_image in
  let '(w, h) := (width image, height image) in
  ys ← range3 0 h block_size;
  for_each ys
    (λ y image,
       xs ← range3 0 w block_size;
       for_each xs
         (λ x image, mosaic_block original_image w h block_size x y image)
         image)
    image.

(** Line 69. *)
Definition gray_average (r g b : Z) : Z := (r + g + b) / 3.

(** The float expression of line 72, [0.3 * r + 0.7 * g + 0.1 * b], with
    Python's left-to-right evaluation. *)
Definition weighted_sum (r g b : Z) : float :=
  PrimFloat.add
    (PrimFloat.add (PrimFloat.mul 0.3%float (float_of_int r))
                   (PrimFloat.mul 0.7%float (float_of_int g)))
    (PrimFloat.mul 0.1%float (float_of_int b)).

(** Line 72. *)
Definition gray_weighted (r g b : Z) : option Z :=
  int_of_float (weighted_sum r g b).

(** Lines 67-72: the two-way branch on the method. *)
Definition gray_value (method : string) (r g b : Z) : option Z :=
  if bool_decide (method = "average")
  then Some (gray_average r g b)
  else gray_weighted r g b.

Definition grayscale_filter (original_image : Image) (method : string)
    : option Image :=
  let image := original_image in
  let '(w, h) := (width image, height image) in
  for_each (range h)
    (λ y image,
       for_each (range w)
         (λ x image,
            '(r, g, b) ← getpixel original_image x y;
            gray ← gray_value method r g b;
            putpixel image x y (gray, gray, gray))
         image)
    image.


Definition threshold_pixel (threshold : Z) (p : pixel) : pixel :=
  let '(r, g, b) := p in
  if r <? threshold then (0, 0, 0) else (255, 255, 255).

Definition high_contrast_filter (original_image : Image) (method : string)
    (threshold : Z) : option Image :=
  gray_image ← grayscale_filter original_image method;
  let '(w, h) := (width gray_image, height gray_image) in
  for_each (range h)
    (λ y image,
       for_each (range w)
         (λ x image,
            p ← getpixel image x y;
            putpixel image x y (threshold_pixel threshold p))
         image)
    gray_image.

Definition negative_pixel (p : pixel) : pixel :=
  let '(r, g, b) := p in (255 - r, 255 - g, 255 - b).

Definition negative_filter (original_image : Image) : option Image :=
  let image := original_image in
  let '(w, h) := (width image, height image) in
  for_each (range h)
    (λ y image,
       for_each (range w)
         (λ x image,
            p ← getpixel image x y;
            putpixel image x y (negative_pixel p))
         image)
    image.

(** Lines 145-154: the chain of comparisons on the channel name. *)
Definition channel_pixel (channel : string) (p : pixel) : pixel :=
  let '(r, g, b) := p in
  if bool_decide (channel = "red") then (r, 0, 0)
  else if bool_decide (channel = "green") then (0, g, 0)
  else if bool_decide (channel = "blue") then (0, 0, b)
  else (r, g, b).

Definition rgb_filter_channel_only (original_image : Image)
    (channel : string) : option Image :=
  let image := original_image in
  let '(w, h) := (width image, height image) in
  for_each (range h)
    (λ y image,
       for_each (range w)
         (λ x image,
            p ← getpixel image x y;
            putpixel image x y (channel_pixel channel p))
         image)
    image.

(** Lines 179-186. *)
Definition brightness_pixel (brightness_delta : Z) (p : pixel) : pixel :=
  let '(r, g, b) := p in
  (clamp (r + brightness_delta),
   clamp (g + brightness_delta),
   clamp (b + brightness_delta)).

Definition brightness_filter (original_image : Image)
    (brightness_delta : Z) : option Image :=
  let image := original_image in
  let '(w, h) := (width image, height image) in
  for_each (range h)
    (λ y image,
       for_each (range w)
         (λ x image,
            p ← getpixel image x y;
            putpixel image x y (brightness_pixel brightness_delta p))
         image)
    image.

(** ** The dispatch of [main] *)

(** The filter chosen in the select box, with the parameters its widgets
    return (lines 215-296). *)
Inductive selected_filter : Type :=
  | Mosaico (block_size : nat)
  | TonoDeGris (grayscale_method : string)
  | AltoContraste (grayscale_method : string) (high_contrast_threshold : Z)
  | Inverso
  | FiltroRGB (rgb_choice : string)
  | Brillo (brightness_delta : Z).

(** Lines 316-366: the call made for each choice. *)
Definition apply_filter (sel : selected_filter) (original_image : Image)
    : option Image :=
  match sel with
  | Mosaico block_size => mosaic_filter original_image block_size
  | TonoDeGris m => grayscale_filter original_image m
  | AltoContraste m t => high_contrast_filter original_image m t
  | Inverso => negative_filter original_image
  | FiltroRGB channel => rgb_filter_channel_only original_image channel
  | Brillo delta => brightness_filter original_image delta
  end.

(** The values the widgets can return: [number_input] from 1 to 100, the
    two radio choices of the method, sliders from 0 to 255 and from -255 to
    255, the three radio choices of the channel. *)
Definition validated (sel : selected_filter) : Prop :=
  match sel with
  | Mosaico block_size => (1 ≤ block_size ≤ 100)%nat
  | TonoDeGris m => m = "average" ∨ m = "weighted"
  | AltoContraste m t => (m = "average" ∨ m = "weighted") ∧ 0 <= t <= 255
  | Inverso => True
  | FiltroRGB channel =>
      channel = "red" ∨ channel = "green" ∨ channel = "blue"
  | Brillo delta => -255 <= delta <= 255
  end.

(** * Properties *)

(** ** Images as pixel grids *)

(** [pixels_are im w h F]: [im] is a well-formed [w] by [h] image whose
    pixel at [(x, y)] is [F x y]. *)
Definition pixels_are (im : Image) (w h : nat) (F : nat → nat → pixel)
    : Prop :=
  width im = w ∧ height im = h ∧ image_shape im ∧
  ∀ x y, (x < w)%nat → (y < h)%nat → getpixel im x y = Some (F x y).

(** The grid after the write [pixels[x, y] = p]. *)
Definition upd (F : nat → nat → pixel) (x y : nat) (p : pixel)
    : nat → nat → pixel :=
  λ x' y', if decide (x' = x ∧ y' = y) then p else F x' y'.

(** The read-out of an image as a grid, with a filler outside it. *)
Definition grid_of (im : Image) : nat → nat → pixel :=
  λ x y, default (0, 0, 0) (getpixel im x y).

(** The image with [f] applied to every pixel. *)
Definition map_image (f : pixel → pixel) (im : Image) : Image :=
  mkImage (width im) (height im) (map (map f) (rows im)).

Lemma getpixel_Some im x y p :
  image_shape im → getpixel im x y = Some p →
  (x < width im)%nat ∧ (y < height im)%nat.
Proof.
  intros [Hh Hw]. unfold getpixel. intros H.
  destruct (rows im !! y) as [row|] eqn:Hy; simpl in H; [|discriminate].
  split.
  - rewrite Forall_lookup in Hw. rewrite <- (Hw _ _ Hy).
    eapply lookup_lt_Some; eauto.
  - rewrite <- Hh. eapply lookup_lt_Some; eauto.
Qed.

Lemma getpixel_is_Some im x y :
  image_shape im → (x < width im)%nat → (y < height im)%nat →
  is_Some (getpixel im x y).
Proof.
  intros [Hh Hw] Hx Hy. unfold getpixel.
  destruct (lookup_lt_is_Some_2 (rows im) y) as [row Hrow]; [lia|].
  rewrite Hrow. simpl. apply lookup_lt_is_Some_2.
  rewrite Forall_lookup in Hw. rewrite (Hw _ _ Hrow). exact Hx.
Qed.

Lemma pixels_are_grid_of im :
  image_shape im → pixels_are im (width im) (height im) (grid_of im).
Proof.
  intros Hwf. repeat split; try apply Hwf.
  intros x y Hx Hy. unfold grid_of.
  destruct (getpixel_is_Some im x y Hwf Hx Hy) as [p ->]. reflexivity.
Qed.

Lemma pixels_are_ext im w h F G :
  pixels_are im w h F →
  (∀ x y, (x < w)%nat → (y < h)%nat → F x y = G x y) →
  pixels_are im w h G.
Proof.
  intros (Hw & Hh & Hwf & Hpx) HFG. repeat split; try assumption; try apply Hwf.
  intros x y Hx Hy. rewrite <- HFG by assumption. auto.
Qed.

(** Two well-formed images of one size with the same pixels are equal. *)
Lemma pixels_are_inj im1 im2 w h F :
  pixels_are im1 w h F → pixels_are im2 w h F → im1 = im2.
Proof.
  intros (Hw1 & Hh1 & [Hl1 Hr1] & Hp1) (Hw2 & Hh2 & [Hl2 Hr2] & Hp2).
  destruct im1 as [w1 h1 rows1], im2 as [w2 h2 rows2]. simpl in *.
  subst w1 h1 w2 h2.
  f_equal.
  apply (list_eq_same_length _ _ h); [assumption | assumption |].
  intros y row1 row2 Hy Hrow1 Hrow2.
  rewrite Forall_lookup in Hr1. rewrite Forall_lookup in Hr2.
  pose proof (Hr1 _ _ Hrow1) as Hlen1. pose proof (Hr2 _ _ Hrow2) as Hlen2.
  apply (list_eq_same_length _ _ w); [assumption | assumption |].
  intros x p1 p2 Hx Hp1' Hp2'.
  specialize (Hp1 x y Hx Hy). specialize (Hp2 x y Hx ltac:(lia)).
  unfold getpixel in Hp1, Hp2. simpl in Hp1, Hp2.
  rewrite Hrow1 in Hp1. rewrite Hrow2 in Hp2. simpl in Hp1, Hp2.
  congruence.
Qed.

Lemma putpixel_pixels_are im w h F x y p :
  pixels_are im w h F → (x < w)%nat → (y < h)%nat →
  ∃ im', putpixel im x y p = Some im' ∧
         pixels_are im' w h (upd F x y (store_pixel p)).
Proof.
  intros (Hw & Hh & [Hl Hr] & Hpx) Hx Hy.
  unfold putpixel.
  destruct (lookup_lt_is_Some_2 (rows im) y) as [row Hrow]; [lia|].
  rewrite Forall_lookup in Hr. pose proof (Hr _ _ Hrow) as Hlen.
  destruct (lookup_lt_is_Some_2 row x) as [q Hq]; [lia|].
  rewrite Hrow. simpl. rewrite Hq. simpl.
  eexists. split; [reflexivity|].
  repeat split; simpl; try assumption.
  - rewrite length_insert. assumption.
  - rewrite Forall_lookup. intros j r' Hj.
    destruct (decide (j = y)) as [->|Hne].
    + rewrite list_lookup_insert_eq in Hj by lia.
      injection Hj as <-. rewrite length_insert. assumption.
    + rewrite list_lookup_insert_ne in Hj by congruence. eauto.
  - intros x' y' Hx' Hy'. unfold getpixel, upd. simpl.
    destruct (decide (y' = y)) as [->|Hne].
    + rewrite list_lookup_insert_eq by lia. simpl.
      destruct (decide (x' = x)) as [->|Hnx].
      * rewrite list_lookup_insert_eq by lia.
        rewrite decide_True by done. reflexivity.
      * rewrite list_lookup_insert_ne by congruence.
        rewrite decide_False by (intros [? ?]; congruence).
        specialize (Hpx x' y Hx' Hy'). unfold getpixel in Hpx.
        rewrite Hrow in Hpx. exact Hpx.
    + rewrite list_lookup_insert_ne by congruence.
      rewrite decide_False by (intros [? ?]; congruence).
      apply Hpx; assumption.
Qed.

Lemma map_image_pixels_are im w h F f :
  pixels_are im w h F →
  pixels_are (map_image f im) w h (λ x y, f (F x y)).
Proof.
  intros (Hw & Hh & [Hl Hr] & Hpx).
  repeat split; simpl; try assumption.
  - rewrite length_map. assumption.
  - rewrite Forall_lookup. intros j r' Hj.
    rewrite list_lookup_fmap in Hj.
    destruct (rows im !! j) as [row|] eqn:Hrow; simpl in Hj; [|discriminate].
    injection Hj as <-. rewrite length_map.
    rewrite Forall_lookup in Hr. eauto.
  - intros x y Hx Hy. specialize (Hpx x y Hx Hy).
    unfold getpixel in *. simpl.
    rewrite list_lookup_fmap.
    destruct (rows im !! y) as [row|]; simpl in *; [|discriminate].
    rewrite list_lookup_fmap. rewrite Hpx. reflexivity.
Qed.

(** ** Loops with an invariant *)

(** A loop over [a, a+1, ..., a+n-1] whose body keeps the invariant [I]
    runs to its end and establishes [I (a + n)]. *)
Lemma for_each_seq_inv {St : Type} (I : nat → St → Prop) body a n (s : St) :
  I a s →
  (∀ i s, (a ≤ i < a + n)%nat → I i s →
          ∃ s', body i s = Some s' ∧ I (S i) s') →
  ∃ s', for_each (seq a n) body s = Some s' ∧ I (a + n)%nat s'.
Proof.
  revert a s. induction n as [|n IH]; intros a s Ha Hbody; simpl.
  - exists s. rewrite Nat.add_0_r. auto.
  - destruct (Hbody a s ltac:(lia) Ha) as (s1 & -> & H1). simpl.
    destruct (IH (S a) s1 H1) as (s2 & Hs2 & H2).
    + intros i s' Hi. apply Hbody. lia.
    + exists s2. split; [exact Hs2|].
      replace (a + S n)%nat with (S a + n)%nat by lia. exact H2.
Qed.

Lemma for_each_ext {St : Type} l (body1 body2 : nat → St → option St) s :
  (∀ i s, i ∈ l → body1 i s = body2 i s) →
  for_each l body1 s = for_each l body2 s.
Proof.
  revert s. induction l as [|i l IH]; intros s H; simpl; [reflexivity|].
  rewrite H by left. destruct (body2 i s) as [s'|]; simpl; [|reflexivity].
  apply IH. intros j s'' Hj. apply H. right. exact Hj.
Qed.

(** Case analysis on the tests that grids built with [upd] and [decide]
    contain. *)
Ltac grid_cases :=
  intros; unfold upd; repeat case_decide; try reflexivity;
  try (exfalso; intuition lia);
  try (destruct_and?; subst; reflexivity).

(** The row-by-row sweep all per-pixel filters share: when the body at
    [(x, y)], run on an image whose pixel [(x, y)] is still the input's,
    writes [G x y] there, the sweep returns the image whose grid is [G]. *)
Lemma sweep_pixels_are w h (step : nat → nat → Image → option Image)
    im F0 G :
  pixels_are im w h F0 →
  (∀ x y s F, (x < w)%nat → (y < h)%nat → pixels_are s w h F →
     F x y = F0 x y →
     ∃ s', step x y s = Some s' ∧ pixels_are s' w h (upd F x y (G x y))) →
  ∃ out,
    for_each (range h) (λ y s, for_each (range w) (λ x s, step x y s) s) im
      = Some out ∧
    pixels_are out w h G.
Proof.
  intros Him Hstep.
  pose (I := λ (y : nat) (s : Image),
     pixels_are s w h
       (λ x' y', if decide (y' < y)%nat then G x' y' else F0 x' y')).
  destruct (for_each_seq_inv I
    (λ y s, for_each (range w) (λ x s, step x y s) s) 0 h im)
    as (out & Hout & Hfin).
  - unfold I. eapply pixels_are_ext; [exact Him|]. grid_cases.
  - intros y s [_ Hy] Hs. simpl in Hy.
    pose (J := λ (x : nat) (s : Image),
       pixels_are s w h
         (λ x' y', if decide (y' < y ∨ (y' = y ∧ x' < x))%nat
                   then G x' y' else F0 x' y')).
    destruct (for_each_seq_inv J (λ x s, step x y s) 0 w s)
      as (s' & Hs' & Hfin).
    + unfold J. eapply pixels_are_ext; [exact Hs|]. grid_cases.
    + intros x s1 [_ Hx] Hs1. simpl in Hx.
      destruct (Hstep x y s1 _ Hx Hy Hs1) as (s2 & Hs2 & Hpx).
      { simpl. grid_cases. }
      exists s2. split; [exact Hs2|].
      unfold J. eapply pixels_are_ext; [exact Hpx|]. grid_cases.
    + exists s'. split; [exact Hs'|].
      unfold I. eapply pixels_are_ext; [exact Hfin|]. grid_cases.
  - exists out. split; [exact Hout|].
    eapply pixels_are_ext; [exact Hfin|]. grid_cases.
Qed.

(** ** Floats of the weighted formula *)

Module WeightedFloat.

(** The band in which every weighted sum of 8-bit samples lies. *)
Definition in_band (x : float) : bool :=
  PrimFloat.leb 0 x && PrimFloat.leb x 1000.

Definition samples : list Z := map Z.of_nat (seq 0 256).

Definition products (c : float) : list float :=
  map (λ z, PrimFloat.mul c (float_of_int z)) samples.

Definition all_in_band (pr pg pb : list float) : bool :=
  forallb (λ x, forallb (λ y, forallb (λ z,
    in_band (PrimFloat.add (PrimFloat.add x y) z)) pb) pg) pr.

(** On a float in the band, truncation and floor agree and are not
    negative. *)
Lemma in_band_trunc_floor x :
  in_band x = true →
  ∃ n, int_of_float x = Some n ∧ floor_of_float x = Some n ∧ 0 <= n.
Proof.
  unfold in_band. rewrite andb_true_iff, !FloatAxioms.leb_spec.
  unfold int_of_float, floor_of_float.
  replace (Prim2SF 0) with (S754_zero false) by (vm_compute; reflexivity).
  replace (Prim2SF 1000) with (S754_finite false 8796093022208000 (-43))
    by (vm_compute; reflexivity).
  destruct (Prim2SF x) as [s|s| |s m e]; intros [H0 H1].
  - exists 0. done.
  - destruct s; discriminate.
  - discriminate.
  - destruct s; [discriminate|].
    eexists. split; [reflexivity|]. split.
    + destruct (0 <=? e); reflexivity.
    + destruct (0 <=? e); [lia|].
      apply Z_div_nonneg_nonneg; [lia|]. apply Z.pow_nonneg; lia.
Qed.

Lemma sample_in_samples v : sample v → v ∈ samples.
Proof.
  unfold sample, samples. intros Hv.
  apply list_elem_of_fmap. exists (Z.to_nat v). split; [lia|].
  apply elem_of_seq. lia.
Qed.

Lemma in_products c v :
  sample v → In (PrimFloat.mul c (float_of_int v)) (products c).
Proof.
  intros Hv. unfold products.
  apply (in_map (λ z, PrimFloat.mul c (float_of_int z))).
  apply list_elem_of_In, sample_in_samples, Hv.
Qed.

Lemma all_in_band_In pr pg pb x y z :
  all_in_band pr pg pb = true → In x pr → In y pg → In z pb →
  in_band (PrimFloat.add (PrimFloat.add x y) z) = true.
Proof.
  unfold all_in_band. intros H Hx Hy Hz.
  rewrite forallb_forall in H. specialize (H x Hx).
  rewrite forallb_forall in H. specialize (H y Hy).
  rewrite forallb_forall in H. exact (H z Hz).
Qed.

(** All 256 * 256 * 256 sums, by evaluation. *)
Lemma all_sums_in_band :
  all_in_band (products 0.3%float) (products 0.7%float)
              (products 0.1%float) = true.
Proof. vm_compute. reflexivity. Qed.

Lemma weighted_sum_in_band r g b :
  sample r → sample g → sample b → in_band (weighted_sum r g b) = true.
Proof.
  intros Hr Hg Hb. unfold weighted_sum.
  exact (all_in_band_In _ _ _ _ _ _ all_sums_in_band
           (in_products _ r Hr) (in_products _ g Hg) (in_products _ b Hb)).
Qed.

End WeightedFloat.

(** On 8-bit samples the weighted formula returns, and its result is the
    floor of the float it computes. *)
Lemma gray_weighted_floor r g b :
  sample r → sample g → sample b →
  ∃ v, gray_weighted r g b = Some v ∧
       floor_of_float (weighted_sum r g b) = Some v ∧ 0 <= v.
Proof.
  intros Hr Hg Hb. unfold gray_weighted.
  apply WeightedFloat.in_band_trunc_floor.
  apply WeightedFloat.weighted_sum_in_band; assumption.
Qed.

(** ** The 8-bit store *)

Lemma clip8_sample v : sample (clip8 v).
Proof.
  unfold clip8, sample.
  destruct (Z.leb_spec v 0); [lia|]. destruct (Z.ltb_spec v 256); lia.
Qed.

Lemma clip8_id v : sample v → clip8 v = v.
Proof.
  unfold clip8, sample. intros Hv.
  destruct (Z.leb_spec v 0); [lia|]. destruct (Z.ltb_spec v 256); lia.
Qed.

Lemma clip8_min v : 0 <= v → clip8 v = Z.min 255 v.
Proof.
  unfold clip8. intros Hv.
  destruct (Z.leb_spec v 0); [lia|]. destruct (Z.ltb_spec v 256); lia.
Qed.

Lemma clip8_top v : 255 <= v → clip8 v = 255.
Proof.
  unfold clip8. intros Hv.
  destruct (Z.leb_spec v 0); [lia|]. destruct (Z.ltb_spec v 256); lia.
Qed.

Lemma store_pixel_in_range p : pixel_in_range (store_pixel p).
Proof.
  destruct p as [[r g] b]. repeat split; apply clip8_sample.
Qed.

Lemma store_pixel_id p : pixel_in_range p → store_pixel p = p.
Proof.
  destruct p as [[r g] b]. intros (Hr & Hg & Hb). simpl.
  rewrite !clip8_id by assumption. reflexivity.
Qed.

(** ** The per-pixel filters as maps *)

Lemma image_in_range_getpixel im x y p :
  image_in_range im → getpixel im x y = Some p → pixel_in_range p.
Proof.
  unfold image_in_range, getpixel. intros Hr H.
  destruct (rows im !! y) as [row|] eqn:Hrow; simpl in H; [|discriminate].
  rewrite Forall_lookup in Hr. specialize (Hr _ _ Hrow).
  rewrite Forall_lookup in Hr. eauto.
Qed.

Lemma image_in_range_pointwise out :
  (∀ x y p, getpixel out x y = Some p → pixel_in_range p) →
  image_in_range out.
Proof.
  intros Hpx. unfold image_in_range.
  apply Forall_lookup. intros y row Hrow.
  apply Forall_lookup. intros x p Hp.
  apply (Hpx x y). unfold getpixel. rewrite Hrow. exact Hp.
Qed.

(** An image all of whose pixels went through the store holds 8-bit
    samples. *)
Lemma pixels_are_stored out w h G :
  pixels_are out w h (λ x y, store_pixel (G x y)) → wf_image out.
Proof.
  intros (Hw & Hh & Hsh & Hpx). split; [exact Hsh|].
  apply image_in_range_pointwise. intros x y p Hp.
  destruct (getpixel_Some out x y p Hsh Hp) as [Hx Hy].
  rewrite Hpx in Hp by lia. injection Hp as <-. apply store_pixel_in_range.
Qed.

Lemma map_image_in_range f im :
  (∀ p, pixel_in_range p → pixel_in_range (f p)) →
  image_in_range im → image_in_range (map_image f im).
Proof.
  intros Hf Hrange. unfold image_in_range, map_image in *. simpl.
  apply Forall_fmap. eapply Forall_impl; [exact Hrange|].
  intros row Hrow. simpl. apply Forall_fmap.
  eapply Forall_impl; [exact Hrow|]. intros p Hp. simpl. auto.
Qed.

Lemma map_image_ext f g im :
  (∀ x y p, getpixel im x y = Some p → f p = g p) →
  map_image f im = map_image g im.
Proof.
  intros Hfg. destruct im as [w h rws]. unfold map_image. simpl. f_equal.
  apply list_eq. intros y. rewrite !list_lookup_fmap.
  destruct (rws !! y) as [row|] eqn:Hrow; simpl; [|reflexivity].
  f_equal. apply list_eq. intros x. rewrite !list_lookup_fmap.
  destruct (row !! x) as [p|] eqn:Hp; simpl; [|reflexivity].
  f_equal. apply (Hfg x y). unfold getpixel. simpl. rewrite Hrow. exact Hp.
Qed.

Lemma map_image_shape f im : image_shape im → image_shape (map_image f im).
Proof.
  intros Hwf.
  apply (map_image_pixels_are im _ _ _ f (pixels_are_grid_of im Hwf)).
Qed.

Lemma map_image_wf f im :
  (∀ p, pixel_in_range p → pixel_in_range (f p)) →
  wf_image im → wf_image (map_image f im).
Proof.
  intros Hf [Hsh Hrange]. split.
  - apply map_image_shape, Hsh.
  - apply map_image_in_range; assumption.
Qed.

Lemma map_image_getpixel f im x y :
  getpixel (map_image f im) x y = f <$> getpixel im x y.
Proof.
  unfold getpixel, map_image. simpl. rewrite list_lookup_fmap.
  destruct (rows im !! y) as [row|]; simpl; [|reflexivity].
  apply list_lookup_fmap.
Qed.

Lemma map_image_id f im :
  (∀ x y p, getpixel im x y = Some p → f p = p) → map_image f im = im.
Proof.
  intros Hf. destruct im as [w h rws]. unfold map_image. simpl. f_equal.
  apply list_eq. intros y. rewrite list_lookup_fmap.
  destruct (rws !! y) as [row|] eqn:Hrow; simpl; [|reflexivity].
  f_equal. apply list_eq. intros x. rewrite list_lookup_fmap.
  destruct (row !! x) as [p|] eqn:Hp; simpl; [|reflexivity].
  f_equal. apply (Hf x y). unfold getpixel. simpl. rewrite Hrow. exact Hp.
Qed.

Lemma map_image_compose f g im :
  map_image f (map_image g im) = map_image (f ∘ g) im.
Proof.
  unfold map_image. simpl. f_equal.
  rewrite <- list_fmap_compose. apply list_fmap_ext. intros _ row _.
  simpl. rewrite <- list_fmap_compose. reflexivity.
Qed.

(** A loop that reads [pixels[x, y]] and writes [f] of it back in place
    returns the image mapped by [f] followed by the store. *)
Lemma inplace_sweep_store f im :
  image_shape im →
  for_each (range (height im))
    (λ y image,
       for_each (range (width im))
         (λ x image, p ← getpixel image x y; putpixel image x y (f p))
         image)
    im = Some (map_image (λ p, store_pixel (f p)) im).
Proof.
  intros Hwf.
  pose proof (pixels_are_grid_of im Hwf) as Him.
  destruct (sweep_pixels_are (width im) (height im)
    (λ x y image, p ← getpixel image x y; putpixel image x y (f p))
    im (grid_of im) (λ x y, store_pixel (f (grid_of im x y))) Him)
    as (out & Hout & Hpx).
  - intros x y s F Hx Hy Hs HF.
    pose proof Hs as (_ & _ & _ & Hget).
    rewrite (Hget x y Hx Hy). simpl. rewrite HF.
    apply putpixel_pixels_are; assumption.
  - rewrite Hout. f_equal.
    eapply pixels_are_inj; [exact Hpx|].
    apply (map_image_pixels_are im _ _ _ (λ p, store_pixel (f p))).
    exact Him.
Qed.

(** When [f] keeps 8-bit samples the store changes nothing. *)
Lemma inplace_sweep_map f im :
  (∀ p, pixel_in_range p → pixel_in_range (f p)) →
  wf_image im →
  for_each (range (height im))
    (λ y image,
       for_each (range (width im))
         (λ x image, p ← getpixel image x y; putpixel image x y (f p))
         image)
    im = Some (map_image f im).
Proof.
  intros Hf [Hsh Hrange]. rewrite (inplace_sweep_store f im Hsh). f_equal.
  apply map_image_ext. intros x y p Hp.
  apply store_pixel_id, Hf. eapply image_in_range_getpixel; eauto.
Qed.

Lemma negative_pixel_in_range p :
  pixel_in_range p → pixel_in_range (negative_pixel p).
Proof.
  destruct p as [[r g] b]. unfold negative_pixel, pixel_in_range, sample. lia.
Qed.

Lemma channel_pixel_in_range channel p :
  pixel_in_range p → pixel_in_range (channel_pixel channel p).
Proof.
  destruct p as [[r g] b]. unfold channel_pixel, pixel_in_range, sample.
  repeat case_bool_decide; lia.
Qed.

Lemma brightness_pixel_in_range delta p :
  pixel_in_range (brightness_pixel delta p).
Proof.
  destruct p as [[r g] b].
  unfold brightness_pixel, clamp, pixel_in_range, sample. lia.
Qed.

Lemma threshold_pixel_in_range threshold p :
  pixel_in_range (threshold_pixel threshold p).
Proof.
  destruct p as [[r g] b]. unfold threshold_pixel, pixel_in_range, sample.
  destruct (r <? threshold); lia.
Qed.

Lemma negative_filter_map im :
  wf_image im → negative_filter im = Some (map_image negative_pixel im).
Proof. exact (inplace_sweep_map negative_pixel im negative_pixel_in_range). Qed.

Lemma rgb_filter_channel_only_map im channel :
  wf_image im →
  rgb_filter_channel_only im channel
    = Some (map_image (channel_pixel channel) im).
Proof.
  exact (inplace_sweep_map (channel_pixel channel) im
           (channel_pixel_in_range channel)).
Qed.

(** What [brightness_filter] writes is clamped by the code itself, so the
    store changes nothing, whatever the image holds. *)
Lemma brightness_filter_map im delta :
  image_shape im →
  brightness_filter im delta = Some (map_image (brightness_pixel delta) im).
Proof.
  intros Hsh. unfold brightness_filter.
  rewrite (inplace_sweep_store (brightness_pixel delta) im Hsh). f_equal.
  apply map_image_ext. intros x y p _.
  apply store_pixel_id, brightness_pixel_in_range.
Qed.

(** The colour [grayscale_filter] writes for a source pixel. *)
Definition gray_pixel (method : string) (p : pixel) : option pixel :=
  let '(r, g, b) := p in
  gray ← gray_value method r g b; Some (gray, gray, gray).

Lemma gray_pixel_in_range method p :
  pixel_in_range p → is_Some (gray_pixel method p).
Proof.
  destruct p as [[r g] b]. intros (Hr & Hg & Hb).
  unfold gray_pixel, gray_value. case_bool_decide; simpl; [eauto|].
  destruct (gray_weighted_floor r g b Hr Hg Hb) as (v & -> & _). simpl. eauto.
Qed.

(** [grayscale_filter] returns whenever the gray value of every pixel is
    defined, and then each output pixel is what the store keeps of the gray
    pixel of its source. *)
Lemma grayscale_filter_pixels im method :
  image_shape im →
  (∀ x y p, getpixel im x y = Some p → is_Some (gray_pixel method p)) →
  ∃ out, grayscale_filter im method = Some out ∧
         width out = width im ∧ height out = height im ∧ wf_image out ∧
         ∀ x y p, getpixel im x y = Some p →
                  ∃ q, gray_pixel method p = Some q ∧
                       getpixel out x y = Some (store_pixel q).
Proof.
  intros Hwf Hdef.
  pose proof (pixels_are_grid_of im Hwf) as Him.
  destruct (sweep_pixels_are (width im) (height im)
    (λ x y image,
       '(r, g, b) ← getpixel im x y;
       gray ← gray_value method r g b;
       putpixel image x y (gray, gray, gray))
    im (grid_of im)
    (λ x y, store_pixel
              (default (0, 0, 0) (gray_pixel method (grid_of im x y)))) Him)
    as (out & Hout & Hpx).
  - intros x y s F Hx Hy Hs _.
    destruct Him as (_ & _ & _ & Hget). rewrite (Hget x y Hx Hy). simpl.
    destruct (Hdef x y _ (Hget x y Hx Hy)) as [q Hq].
    rewrite Hq. unfold gray_pixel in Hq.
    destruct (grid_of im x y) as [[r g] b].
    destruct (gray_value method r g b) as [v|]; simpl in *; [|discriminate].
    injection Hq as <-.
    apply putpixel_pixels_are; assumption.
  - exists out. split; [exact Hout|].
    pose proof (pixels_are_stored _ _ _ _ Hpx) as Hwfo.
    destruct Hpx as (Hw & Hh & _ & Hget).
    repeat split; try assumption; try apply Hwfo.
    intros x y p Hp.
    destruct (getpixel_Some im x y p Hwf Hp) as [Hx Hy].
    destruct (Hdef x y p Hp) as [q Hq]. exists q. split; [exact Hq|].
    rewrite (Hget x y Hx Hy). unfold grid_of. rewrite Hp. simpl.
    rewrite Hq. reflexivity.
Qed.

(** The second sweep of [high_contrast_filter] writes black or white, which
    the store keeps as they are. *)
Lemma high_contrast_filter_map im method threshold gray :
  grayscale_filter im method = Some gray → image_shape gray →
  high_contrast_filter im method threshold
    = Some (map_image (threshold_pixel threshold) gray).
Proof.
  intros Hg Hwf. unfold high_contrast_filter. rewrite Hg. simpl.
  rewrite (inplace_sweep_store (threshold_pixel threshold) gray Hwf). f_equal.
  apply map_image_ext. intros x y p _.
  apply store_pixel_id, threshold_pixel_in_range.
Qed.

(** ** Mosaic *)

(** The pixels of the block whose corner is [(x, y)]: at most [block_size]
    rows from row [y] on, and in each at most [block_size] pixels from
    column [x] on; the image boundary cuts the block short. *)
Definition block_pixels (im : Image) (x y block_size : nat) : list pixel :=
  row ← take block_size (drop y (rows im)); take block_size (drop x row).

Definition channel_sum (f : pixel → Z) (l : list pixel) : Z :=
  foldr (λ p acc, f p + acc) 0 l.

Definition red (p : pixel) : Z := p.1.1.
Definition green (p : pixel) : Z := p.1.2.
Definition blue (p : pixel) : Z := p.2.

(** The floor of the mean of each channel over a list of pixels. *)
Definition mean_colour (l : list pixel) : pixel :=
  let n := Z.of_nat (length l) in
  (channel_sum red l / n, channel_sum green l / n, channel_sum blue l / n).

(** The corner of the block that contains column (or row) [i]. *)
Definition block_corner (block_size i : nat) : nat :=
  (i / block_size * block_size)%nat.

(** The colour [mosaic_filter] gives the pixel [(x, y)]. *)
Definition mosaic_colour (im : Image) (block_size x y : nat) : pixel :=
  mean_colour (block_pixels im (block_corner block_size x)
                            (block_corner block_size y) block_size).

Lemma channel_sum_app f l1 l2 :
  channel_sum f (l1 ++ l2) = channel_sum f l1 + channel_sum f l2.
Proof.
  unfold channel_sum. induction l1 as [|p l1 IH]; simpl; [reflexivity|].
  rewrite IH. lia.
Qed.

Lemma block_corner_in k bs i :
  (k * bs ≤ i < k * bs + bs)%nat → block_corner bs i = (k * bs)%nat.
Proof.
  intros Hi. unfold block_corner. f_equal.
  symmetry. apply (Nat.div_unique i bs k (i - k * bs)); lia.
Qed.

(** A stepped loop whose body moves the invariant [I] from [i] to
    [i + step] runs to its end and establishes [I] at the first position
    that is not below [stop]. *)
Lemma for_each_range_from_inv {St : Type} (I : nat → St → Prop) body
    step stop fuel start (s : St) :
  (0 < step)%nat → (stop ≤ start + fuel)%nat → I start s →
  (∀ i s, (start ≤ i < stop)%nat → I i s →
          ∃ s', body i s = Some s' ∧ I (i + step)%nat s') →
  ∃ s' e, for_each (range_from fuel start stop step) body s = Some s' ∧
          (stop ≤ e)%nat ∧ I e s'.
Proof.
  intros Hstep. revert start s.
  induction fuel as [|fuel IH]; intros start s Hfuel Hs Hbody; simpl.
  - exists s, start. split; [reflexivity|]. split; [lia|assumption].
  - destruct (start <? stop)%nat eqn:Hlt.
    + apply Nat.ltb_lt in Hlt.
      destruct (Hbody start s ltac:(lia) Hs) as (s1 & Hs1 & H1).
      simpl. rewrite Hs1. simpl.
      apply IH; [lia | exact H1 |].
      intros i s' Hi. apply Hbody. lia.
    + apply Nat.ltb_ge in Hlt.
      exists s, start. split; [reflexivity|]. split; [lia|assumption].
Qed.

(** Painting a block changes exactly the pixels of the block. *)
Lemma paint_block_pixels_are s w h F x0 y0 bs c :
  pixels_are s w h F → (x0 < w)%nat → (y0 < h)%nat →
  ∃ s', paint_block s w h x0 y0 bs c = Some s' ∧
        pixels_are s' w h
          (λ x' y', if decide (x0 ≤ x' < x0 + bs ∧ y0 ≤ y' < y0 + bs)%nat
                    then store_pixel c else F x' y').
Proof.
  intros Hs Hx0 Hy0. unfold paint_block, range2.
  pose (I := λ (y : nat) (s : Image),
     pixels_are s w h
       (λ x' y', if decide (x0 ≤ x' < x0 + bs ∧ y0 ≤ y' < y)%nat
                 then store_pixel c else F x' y')).
  destruct (for_each_seq_inv I
    (λ by_ image,
       for_each (seq x0 (Nat.min (x0 + bs) w - x0))
         (λ bx image, putpixel image bx by_ c) image)
    y0 (Nat.min (y0 + bs) h - y0) s) as (s' & Hs' & Hfin).
  - unfold I. eapply pixels_are_ext; [exact Hs|]. grid_cases.
  - intros y s1 Hy Hs1.
    pose (J := λ (x : nat) (s : Image),
       pixels_are s w h
         (λ x' y', if decide ((x0 ≤ x' < x0 + bs ∧ y0 ≤ y' < y) ∨
                              (y' = y ∧ x0 ≤ x' < x))%nat
                   then store_pixel c else F x' y')).
    destruct (for_each_seq_inv J (λ bx image, putpixel image bx y c)
      x0 (Nat.min (x0 + bs) w - x0) s1) as (s2 & Hs2 & Hfin).
    + unfold J. eapply pixels_are_ext; [exact Hs1|]. grid_cases.
    + intros x s3 Hx Hs3.
      destruct (putpixel_pixels_are s3 w h _ x y c Hs3) as (s4 & Hs4 & H4);
        [lia | lia |].
      exists s4. split; [exact Hs4|].
      unfold J. eapply pixels_are_ext; [exact H4|]. grid_cases.
    + exists s2. split; [exact Hs2|].
      unfold I. eapply pixels_are_ext; [exact Hfin|]. grid_cases.
  - exists s'. split; [exact Hs'|].
    eapply pixels_are_ext; [exact Hfin|]. grid_cases.
Qed.

(** The accumulator of [block_sums] after the pixels of [l] were added. *)
Definition add_pixels (acc : Z * Z * Z * Z) (l : list pixel)
    : Z * Z * Z * Z :=
  let '(sum_r, sum_g, sum_b, count) := acc in
  (sum_r + channel_sum red l, sum_g + channel_sum green l,
   sum_b + channel_sum blue l, count + Z.of_nat (length l)).

Ltac pair_eq :=
  repeat match goal with
         | |- (_, _) = (_, _) => apply (f_equal2 pair)
         end; try lia.

Lemma add_pixels_app acc l1 l2 :
  add_pixels (add_pixels acc l1) l2 = add_pixels acc (l1 ++ l2).
Proof.
  destruct acc as [[[sr sg] sb] c]. unfold add_pixels.
  rewrite !channel_sum_app, length_app, Nat2Z.inj_add. pair_eq.
Qed.

(** The inner loop of [block_sums] on one row. *)
Lemma block_sums_row im y row n x acc :
  rows im !! y = Some row → (x + n ≤ length row)%nat →
  for_each (seq x n)
    (λ bx '(sum_r, sum_g, sum_b, count),
       '(r, g, b) ← getpixel im bx y;
       Some (sum_r + r, sum_g + g, sum_b + b, count + 1))
    acc = Some (add_pixels acc (take n (drop x row))).
Proof.
  intros Hrow. revert x acc.
  induction n as [|n IH]; intros x acc Hlen; simpl.
  - destruct acc as [[[sr sg] sb] c]. unfold add_pixels, channel_sum. simpl.
    f_equal. pair_eq.
  - destruct (lookup_lt_is_Some_2 row x) as [p Hp]; [lia|].
    destruct acc as [[[sr sg] sb] c].
    assert (Hget : getpixel im x y = Some p).
    { unfold getpixel. rewrite Hrow. exact Hp. }
    rewrite Hget. destruct p as [[r g] b]. simpl.
    rewrite IH by lia.
    rewrite (drop_S row (r, g, b) x Hp). simpl.
    f_equal. unfold add_pixels, channel_sum, red, green, blue. simpl.
    pair_eq.
Qed.

(** The outer loop of [block_sums]. *)
Lemma block_sums_rows im w nx x n y acc :
  image_shape im → width im = w → (x + nx ≤ w)%nat →
  (y + n ≤ height im)%nat →
  for_each (seq y n)
    (λ by_ acc,
       for_each (seq x nx)
         (λ bx '(sum_r, sum_g, sum_b, count),
            '(r, g, b) ← getpixel im bx by_;
            Some (sum_r + r, sum_g + g, sum_b + b, count + 1))
         acc)
    acc
  = Some (add_pixels acc
            (row ← take n (drop y (rows im)); take nx (drop x row))).
Proof.
  intros [Hh Hw] Hwid Hx. revert y acc.
  induction n as [|n IH]; intros y acc Hy; simpl.
  - destruct acc as [[[sr sg] sb] c]. unfold add_pixels, channel_sum. simpl.
    f_equal. pair_eq.
  - destruct (lookup_lt_is_Some_2 (rows im) y) as [row Hrow]; [lia|].
    rewrite Forall_lookup in Hw. pose proof (Hw _ _ Hrow) as Hlen.
    rewrite (block_sums_row im y row nx x acc Hrow) by lia. simpl.
    rewrite IH by lia.
    rewrite (drop_S (rows im) row y Hrow). simpl.
    rewrite add_pixels_app. reflexivity.
Qed.

Lemma take_block_row (row : list pixel) w x bs :
  length row = w →
  take (Nat.min (x + bs) w - x) (drop x row) = take bs (drop x row).
Proof.
  intros Hlen.
  destruct (decide (x + bs ≤ w)%nat) as [Hle|Hgt].
  - f_equal. lia.
  - rewrite !take_ge; [reflexivity | rewrite length_drop; lia..].
Qed.

Lemma take_block_rows (rws : list (list pixel)) h y bs :
  length rws = h →
  take (Nat.min (y + bs) h - y) (drop y rws) = take bs (drop y rws).
Proof.
  intros Hlen.
  destruct (decide (y + bs ≤ h)%nat) as [Hle|Hgt].
  - f_equal. lia.
  - rewrite !take_ge; [reflexivity | rewrite length_drop; lia..].
Qed.

(** [block_sums] returns the channel sums and the size of the block. *)
Lemma block_sums_spec im x y bs :
  image_shape im → (x < width im)%nat → (y < height im)%nat →
  block_sums im (width im) (height im) x y bs
  = Some (add_pixels (0, 0, 0, 0) (block_pixels im x y bs)).
Proof.
  intros Hwf Hx Hy. unfold block_sums, range2.
  rewrite (block_sums_rows im (width im)) by (try done; lia).
  f_equal. f_equal. unfold block_pixels.
  destruct Hwf as [Hh Hw].
  rewrite (take_block_rows _ (height im)) by assumption.
  apply Forall_bind_ext, Forall_take, Forall_drop.
  eapply Forall_impl; [exact Hw|].
  intros row Hlen. simpl. apply take_block_row. exact Hlen.
Qed.

Lemma block_pixels_nonempty im x y bs :
  image_shape im → (x < width im)%nat → (y < height im)%nat → (0 < bs)%nat →
  (0 < length (block_pixels im x y bs))%nat.
Proof.
  intros [Hh Hw] Hx Hy Hbs. unfold block_pixels.
  destruct (lookup_lt_is_Some_2 (rows im) y) as [row Hrow]; [lia|].
  rewrite Forall_lookup in Hw. pose proof (Hw _ _ Hrow) as Hlen.
  destruct (lookup_lt_is_Some_2 row x) as [p Hp]; [lia|].
  rewrite (drop_S _ _ _ Hrow). destruct bs as [|bs]; [lia|]. simpl.
  rewrite (drop_S _ _ _ Hp). simpl. lia.
Qed.

Lemma channel_sum_bounds f l :
  Forall (λ p, 0 <= f p <= 255) l →
  0 <= channel_sum f l <= 255 * Z.of_nat (length l).
Proof.
  unfold channel_sum. induction 1 as [|p l Hp _ IH]; simpl; lia.
Qed.

Lemma mean_colour_in_range l :
  Forall pixel_in_range l → (0 < length l)%nat →
  pixel_in_range (mean_colour l).
Proof.
  intros Hl Hne. unfold mean_colour, pixel_in_range, sample.
  assert (Hn : 0 < Z.of_nat (length l)) by lia.
  assert (Hb : ∀ f, Forall (λ p, 0 <= f p <= 255) l →
                    0 <= channel_sum f l / Z.of_nat (length l) <= 255).
  { intros f Hf. pose proof (channel_sum_bounds f l Hf) as Hs. split.
    - apply Z.div_pos; lia.
    - apply Z.div_le_upper_bound; lia. }
  repeat split; apply Hb; (eapply Forall_impl; [exact Hl|]);
    intros [[r g] b] (Hr & Hg & Hb'); unfold red, green, blue, sample in *;
    simpl; lia.
Qed.

Lemma block_pixels_in_range im x y bs :
  image_in_range im → Forall pixel_in_range (block_pixels im x y bs).
Proof.
  intros Hrange. unfold block_pixels. apply Forall_bind.
  apply Forall_take, Forall_drop.
  eapply Forall_impl; [exact Hrange|].
  intros row Hrow. simpl. apply Forall_take, Forall_drop. exact Hrow.
Qed.

Lemma block_corner_le bs i : (block_corner bs i ≤ i)%nat.
Proof.
  unfold block_corner. destruct bs as [|bs]; [simpl; lia|].
  rewrite Nat.mul_comm. apply Nat.Div0.mul_div_le.
Qed.

(** One block: the block is painted with the mean colour of the source
    block, as the store keeps it, and nothing else changes. *)
Lemma mosaic_block_pixels_are im bs x y s F :
  image_shape im → (0 < bs)%nat →
  (x < width im)%nat → (y < height im)%nat →
  pixels_are s (width im) (height im) F →
  ∃ s', mosaic_block im (width im) (height im) bs x y s = Some s' ∧
        pixels_are s' (width im) (height im)
          (λ x' y', if decide (x ≤ x' < x + bs ∧ y ≤ y' < y + bs)%nat
                    then store_pixel (mean_colour (block_pixels im x y bs))
                    else F x' y').
Proof.
  intros Hwf Hbs Hx Hy Hs. unfold mosaic_block.
  rewrite (block_sums_spec im x y bs Hwf Hx Hy).
  pose proof (block_pixels_nonempty im x y bs Hwf Hx Hy Hbs) as Hne.
  unfold add_pixels. simpl. rewrite !Z.add_0_l.
  unfold floordiv.
  destruct (Z.eqb_spec (Z.of_nat (length (block_pixels im x y bs))) 0)
    as [H0|_]; [lia|]. simpl.
  apply paint_block_pixels_are; assumption.
Qed.

(** [mosaic_filter] returns, and every pixel of its result carries what
    the store keeps of the mean colour of the block that contains it. *)
Lemma mosaic_filter_stored im bs :
  image_shape im → (0 < bs)%nat →
  ∃ out, mosaic_filter im bs = Some out ∧
         pixels_are out (width im) (height im)
           (λ x y, store_pixel (mosaic_colour im bs x y)).
Proof.
  intros Hwf Hbs.
  pose proof (pixels_are_grid_of im Hwf) as Him.
  assert (Hnz : (bs =? 0)%nat = false) by (apply Nat.eqb_neq; lia).
  unfold mosaic_filter, range3. rewrite Hnz. simpl.
  set (w := width im) in *. set (h := height im) in *.
  pose (IY := λ (y : nat) (s : Image),
     (∃ k, y = (k * bs)%nat) ∧
     pixels_are s w h
       (λ x' y', if decide (y' < y)%nat
                 then store_pixel (mosaic_colour im bs x' y')
                   else grid_of im x' y')).
  destruct (for_each_range_from_inv IY
    (λ y image,
       for_each (range_from w 0 w bs)
         (λ x image, mosaic_block im w h bs x y image) image)
    bs h h 0%nat im Hbs) as (out & e & Hout & He & [_ Hfin]).
  - lia.
  - split; [exists 0%nat; lia|].
    eapply pixels_are_ext; [exact Him|]. grid_cases.
  - intros y s Hy [[ky Hky] Hs].
    pose (IX := λ (x : nat) (s : Image),
       (∃ k, x = (k * bs)%nat) ∧
       pixels_are s w h
         (λ x' y', if decide (y' < y ∨ (y ≤ y' < y + bs ∧ x' < x))%nat
                   then store_pixel (mosaic_colour im bs x' y')
                   else grid_of im x' y')).
    destruct (for_each_range_from_inv IX
      (λ x image, mosaic_block im w h bs x y image)
      bs w w 0%nat s Hbs) as (s' & ex & Hs' & Hex & [_ Hfin]).
    + lia.
    + split; [exists 0%nat; lia|].
      eapply pixels_are_ext; [exact Hs|]. grid_cases.
    + intros x s1 Hx [[kx Hkx] Hs1].
      destruct (mosaic_block_pixels_are im bs x y s1 _ Hwf Hbs
                  ltac:(lia) ltac:(lia) Hs1) as (s2 & Hs2 & H2).
      exists s2. split; [exact Hs2|]. split; [exists (S kx); lia|].
      eapply pixels_are_ext; [exact H2|].
      intros x' y' Hx' Hy'. simpl.
      destruct (decide (x ≤ x' < x + bs ∧ y ≤ y' < y + bs)%nat)
        as [Hin|Hout].
      * rewrite decide_True by lia. unfold mosaic_colour.
        rewrite (block_corner_in kx bs x') by lia.
        rewrite (block_corner_in ky bs y') by lia.
        subst x y. reflexivity.
      * grid_cases.
    + exists s'. split; [exact Hs'|]. split; [exists (S ky); lia|].
      eapply pixels_are_ext; [exact Hfin|]. grid_cases.
  - exists out. split; [exact Hout|].
    eapply pixels_are_ext; [exact Hfin|]. grid_cases.
Qed.

(** The mean colour of a block of 8-bit samples is a pixel of 8-bit
    samples. *)
Lemma mosaic_colour_in_range im bs x y :
  wf_image im → (0 < bs)%nat → (x < width im)%nat → (y < height im)%nat →
  pixel_in_range (mosaic_colour im bs x y).
Proof.
  intros [Hsh Hrange] Hbs Hx Hy. apply mean_colour_in_range.
  - apply block_pixels_in_range, Hrange.
  - pose proof (block_corner_le bs x). pose proof (block_corner_le bs y).
    apply block_pixels_nonempty; [exact Hsh | lia..].
Qed.

(** On an image of 8-bit samples the store keeps the mean colours as they
    are. *)
Lemma mosaic_filter_pixels_are im bs :
  wf_image im → (0 < bs)%nat →
  ∃ out, mosaic_filter im bs = Some out ∧
         pixels_are out (width im) (height im) (mosaic_colour im bs).
Proof.
  intros Hwf Hbs.
  destruct (mosaic_filter_stored im bs (proj1 Hwf) Hbs) as (out & Hout & Hpx).
  exists out. split; [exact Hout|].
  eapply pixels_are_ext; [exact Hpx|].
  intros x y Hx Hy.
  apply store_pixel_id, mosaic_colour_in_range; assumption.
Qed.

Lemma mosaic_filter_wf im bs out :
  image_shape im → (0 < bs)%nat →
  mosaic_filter im bs = Some out → wf_image out.
Proof.
  intros Hsh Hbs Hout.
  destruct (mosaic_filter_stored im bs Hsh Hbs) as (out' & Hout' & Hpx).
  rewrite Hout in Hout'. injection Hout' as <-.
  exact (pixels_are_stored _ _ _ _ Hpx).
Qed.

(** * The stated properties *)

(** ** Mosaic *)

(** The image of the mosaic scenario. *)
Definition scenario_image : Image :=
  mkImage 2 2 [[(10, 20, 30); (200, 100, 50)]; [(0, 0, 0); (255, 255, 255)]].

(** The image of size [w] by [h] whose pixels all are [p]. *)
Definition uniform_image (w h : nat) (p : pixel) : Image :=
  mkImage w h (replicate h (replicate w p)).

(** What [mosaic_filter] owes its caller: an image of the same size in
    which every pixel carries the floor of the channel means of the block
    it lies in, the blocks being cut from [(0, 0)] on. *)
Definition mosaic_post (im : Image) (block_size : nat) (out : Image) : Prop :=
  width out = width im ∧ height out = height im ∧ wf_image out ∧
  ∀ x y, (x < width im)%nat → (y < height im)%nat →
    getpixel out x y
    = Some (mean_colour
              (block_pixels im (block_corner block_size x)
                            (block_corner block_size y) block_size)).

(** Concrete images are checked by evaluation. *)
Ltac concrete_image :=
  split; [split; [reflexivity | repeat constructor]
         | repeat constructor; unfold sample; lia].

Lemma scenario_image_wf : wf_image scenario_image.
Proof. concrete_image. Qed.

(** C1, as stated, fails: the blue channel of the scenario sums to 335, not
    to 80, so no output pixel of the scenario is (116, 93, 20). *)
Lemma C1_scenario_counterexample :
  ¬ ∃ out, mosaic_filter scenario_image 2 = Some out ∧
           ∀ x y, (x < 2)%nat → (y < 2)%nat →
                  getpixel out x y = Some (116, 93, 20).
Proof.
  intros (out & Hout & Hpx).
  vm_compute in Hout. injection Hout as <-.
  specialize (Hpx 0%nat 0%nat ltac:(lia) ltac:(lia)).
  vm_compute in Hpx. discriminate.
Qed.

(** C1, amended: for every well-formed image and every block size from 1
    to 100, [mosaic_filter] returns an image of the same size in which each
    pixel carries, per channel, the floor of the sum over its block divided
    by the number of pixels of the block; the blocks start at (0, 0), do
    not overlap, and the last ones are cut at the image boundary.  On the
    2x2 scenario with block size 2 all four pixels are (116, 93, 83). *)
Theorem C1_mosaic_block_mean (im : Image) (block_size : nat) :
  wf_image im → (1 ≤ block_size ≤ 100)%nat →
  (∃ out, mosaic_filter im block_size = Some out ∧
          mosaic_post im block_size out) ∧
  mosaic_filter scenario_image 2
  = Some (uniform_image 2 2 (116, 93, 83)).
Proof.
  intros Hwf Hbs. split; [|vm_compute; reflexivity].
  destruct (mosaic_filter_pixels_are im block_size Hwf ltac:(lia))
    as (out & Hout & Hw & Hh & Hsho & Hpx).
  exists out. split; [exact Hout|].
  split; [exact Hw|]. split; [exact Hh|]. split; [|exact Hpx].
  exact (mosaic_filter_wf im block_size out (proj1 Hwf) ltac:(lia) Hout).
Qed.

Lemma C1_mosaic_block_mean_witness :
  (∃ out, mosaic_filter scenario_image 2 = Some out ∧
          mosaic_post scenario_image 2 out) ∧
  mosaic_filter scenario_image 2
  = Some (uniform_image 2 2 (116, 93, 83)).
Proof.
  apply (C1_mosaic_block_mean scenario_image 2).
  - concrete_image.
  - lia.
Defined.

(** ** Negative *)

(** What [negative_filter] owes its caller. *)
Definition negative_post (im out : Image) : Prop :=
  width out = width im ∧ height out = height im ∧
  ∀ x y r g b, getpixel im x y = Some (r, g, b) →
               getpixel out x y = Some (255 - r, 255 - g, 255 - b).

Lemma negative_pixel_involutive p : negative_pixel (negative_pixel p) = p.
Proof. destruct p as [[r g] b]. unfold negative_pixel. pair_eq. Qed.

(** C6: [negative_filter] maps every pixel (r, g, b) to
    (255-r, 255-g, 255-b), and applying it to its own result gives the
    original image back, exactly. *)
Theorem C6_negative_involution (im : Image) :
  wf_image im →
  ∃ neg, negative_filter im = Some neg ∧ negative_post im neg ∧
         negative_filter neg = Some im.
Proof.
  intros Hwf. exists (map_image negative_pixel im).
  split; [apply negative_filter_map, Hwf|]. split.
  - repeat split. intros x y r g b Hp.
    rewrite map_image_getpixel, Hp. reflexivity.
  - rewrite negative_filter_map
      by (apply map_image_wf; [apply negative_pixel_in_range | exact Hwf]).
    rewrite map_image_compose. f_equal.
    apply map_image_id. intros x y p _. apply negative_pixel_involutive.
Qed.

Lemma C6_negative_involution_witness :
  ∃ neg, negative_filter scenario_image = Some neg ∧
         negative_post scenario_image neg ∧
         negative_filter neg = Some scenario_image.
Proof.
  apply (C6_negative_involution scenario_image).
  concrete_image.
Defined.

(** ** Brightness *)

(** Saturation at the bounds 0 and 255, as a case distinction. *)
Definition saturate (v : Z) : Z :=
  if v <? 0 then 0 else if 255 <? v then 255 else v.

Lemma clamp_saturate v : clamp v = saturate v.
Proof.
  unfold clamp, saturate.
  destruct (Z.ltb_spec v 0), (Z.ltb_spec 255 v); lia.
Qed.

(** What [brightness_filter] owes its caller. *)
Definition brightness_post (im : Image) (delta : Z) (out : Image) : Prop :=
  width out = width im ∧ height out = height im ∧
  ∀ x y r g b, getpixel im x y = Some (r, g, b) →
    getpixel out x y
    = Some (saturate (r + delta), saturate (g + delta), saturate (b + delta)).

(** C7: for every delta from -255 to 255, every channel of every pixel of
    [brightness_filter image delta] is the input plus delta, saturated at
    0 and 255; and on an image of 8-bit samples a delta of 0 returns the
    image itself. *)
Theorem C7_brightness_clamp (im : Image) (delta : Z) :
  wf_image im → -255 <= delta <= 255 →
  (∃ out, brightness_filter im delta = Some out ∧
          brightness_post im delta out) ∧
  (image_in_range im → brightness_filter im 0 = Some im).
Proof.
  intros [Hwf _] _. split.
  - exists (map_image (brightness_pixel delta) im).
    split; [apply brightness_filter_map, Hwf|].
    repeat split. intros x y r g b Hp.
    rewrite map_image_getpixel, Hp. simpl.
    rewrite !clamp_saturate. reflexivity.
  - intros Hrange. rewrite brightness_filter_map by exact Hwf. f_equal.
    apply map_image_id. intros x y [[r g] b] Hp.
    pose proof (image_in_range_getpixel im x y _ Hrange Hp) as (Hr & Hg & Hb).
    unfold brightness_pixel, clamp, sample in *. pair_eq.
Qed.

Lemma C7_brightness_clamp_witness :
  (∃ out, brightness_filter scenario_image 100 = Some out ∧
          brightness_post scenario_image 100 out) ∧
  (image_in_range scenario_image →
   brightness_filter scenario_image 0 = Some scenario_image).
Proof.
  apply (C7_brightness_clamp scenario_image 100).
  - concrete_image.
  - lia.
Defined.

(** ** Channel isolation *)

(** What [rgb_filter_channel_only] owes its caller for a channel name:
    each pixel is sent through [keep]. *)
Definition channel_post (im : Image) (keep : pixel → pixel) (out : Image)
    : Prop :=
  width out = width im ∧ height out = height im ∧
  ∀ x y p, getpixel im x y = Some p → getpixel out x y = Some (keep p).

(** C8: [rgb_filter_channel_only] maps each pixel (r, g, b) to (r, 0, 0)
    for "red", (0, g, 0) for "green" and (0, 0, b) for "blue"; with "red"
    the green and blue of every output pixel are 0 and its red is the
    source's. *)
Theorem C8_channel_isolate (im : Image) :
  wf_image im →
  (∃ out, rgb_filter_channel_only im "red" = Some out ∧
          channel_post im (λ '(r, g, b), (r, 0, 0)) out) ∧
  (∃ out, rgb_filter_channel_only im "green" = Some out ∧
          channel_post im (λ '(r, g, b), (0, g, 0)) out) ∧
  (∃ out, rgb_filter_channel_only im "blue" = Some out ∧
          channel_post im (λ '(r, g, b), (0, 0, b)) out).
Proof.
  intros Hwf.
  repeat split;
    (eexists; split; [apply rgb_filter_channel_only_map, Hwf|];
     repeat split; intros x y [[r g] b] Hp;
     rewrite map_image_getpixel, Hp; reflexivity).
Qed.

Lemma C8_channel_isolate_witness :
  (∃ out, rgb_filter_channel_only scenario_image "red" = Some out ∧
          channel_post scenario_image (λ '(r, g, b), (r, 0, 0)) out) ∧
  (∃ out, rgb_filter_channel_only scenario_image "green" = Some out ∧
          channel_post scenario_image (λ '(r, g, b), (0, g, 0)) out) ∧
  (∃ out, rgb_filter_channel_only scenario_image "blue" = Some out ∧
          channel_post scenario_image (λ '(r, g, b), (0, 0, b)) out).
Proof.
  apply (C8_channel_isolate scenario_image).
  concrete_image.
Defined.

(** ** Grayscale *)

(** What [grayscale_filter] owes its caller when [is_gray r g b v] says
    that [v] is the gray value of (r, g, b). *)
Definition grayscale_post (im : Image) (is_gray : Z → Z → Z → Z → Prop)
    (out : Image) : Prop :=
  width out = width im ∧ height out = height im ∧
  ∀ x y r g b, getpixel im x y = Some (r, g, b) →
    ∃ v, is_gray r g b v ∧ getpixel out x y = Some (v, v, v).

(** On an image of 8-bit samples [grayscale_filter] returns for every
    method, and each of the three channels of an output pixel holds what
    the store keeps of the gray value of its source. *)
Lemma grayscale_filter_total im method :
  wf_image im →
  ∃ out, grayscale_filter im method = Some out ∧ wf_image out ∧
         grayscale_post im
           (λ r g b s, ∃ v, gray_value method r g b = Some v ∧
                            s = clip8 v ∧ pixel_in_range (r, g, b)) out.
Proof.
  intros [Hsh Hrange].
  destruct (grayscale_filter_pixels im method Hsh)
    as (out & Hout & Hw & Hh & Hwfo & Hpx).
  { intros x y p Hp. apply gray_pixel_in_range.
    exact (image_in_range_getpixel im x y p Hrange Hp). }
  exists out. split; [exact Hout|]. split; [exact Hwfo|].
  split; [exact Hw|]. split; [exact Hh|].
  intros x y r g b Hp.
  destruct (Hpx x y _ Hp) as (q & Hq & Hget).
  unfold gray_pixel in Hq.
  destruct (gray_value method r g b) as [v|] eqn:Hv; simpl in Hq;
    [|discriminate].
  injection Hq as <-. exists (clip8 v). split; [|exact Hget].
  exists v. split; [reflexivity|]. split; [reflexivity|].
  exact (image_in_range_getpixel im x y _ Hrange Hp).
Qed.

Lemma grayscale_post_impl im (P Q : Z → Z → Z → Z → Prop) out :
  (∀ r g b v, P r g b v → Q r g b v) →
  grayscale_post im P out → grayscale_post im Q out.
Proof.
  intros HPQ (Hw & Hh & Hpx). repeat split; try assumption.
  intros x y r g b Hp. destruct (Hpx x y r g b Hp) as (v & Hv & Hget).
  exists v. split; [apply HPQ, Hv | exact Hget].
Qed.

(** Every method other than "average" takes the branch of "weighted". *)
Lemma gray_value_not_average method r g b :
  method ≠ "average" → gray_value method r g b = gray_weighted r g b.
Proof. intros Hm. unfold gray_value. rewrite bool_decide_false; done. Qed.

Lemma grayscale_filter_not_average im method :
  method ≠ "average" →
  grayscale_filter im method = grayscale_filter im "weighted".
Proof.
  intros Hm. unfold grayscale_filter. simpl.
  apply for_each_ext. intros y s _.
  apply for_each_ext. intros x s' _.
  destruct (getpixel im x y) as [[[r g] b]|]; simpl; [|reflexivity].
  rewrite (gray_value_not_average method) by exact Hm.
  reflexivity.
Qed.

(** The average of 8-bit samples is an 8-bit sample. *)
Lemma gray_average_sample r g b :
  sample r → sample g → sample b → sample (gray_average r g b).
Proof.
  unfold gray_average, sample. intros Hr Hg Hb. split.
  - apply Z.div_pos; lia.
  - apply Z.div_le_upper_bound; lia.
Qed.

(** The gray value the specification writes for "weighted": the floor of
    the exact, rational value of 0.3 r + 0.7 g + 0.1 b. *)
Definition gray_weighted_exact (r g b : Z) : Z :=
  Qround.Qfloor
    (QArith_base.Qplus
       (QArith_base.Qplus
          (QArith_base.Qmult (QArith_base.Qmake 3 10) (QArith_base.inject_Z r))
          (QArith_base.Qmult (QArith_base.Qmake 7 10) (QArith_base.inject_Z g)))
       (QArith_base.Qmult (QArith_base.Qmake 1 10) (QArith_base.inject_Z b))).

(** The weighted formula as the specification words it,
    0.3*r + 0.7*g + 0.1*b, read in binary64 arithmetic. *)
Definition weighted_formula (r g b : Z) : float :=
  (0.3 * float_of_int r + 0.7 * float_of_int g + 0.1 * float_of_int b)%float.

(** The gray value of "average": the floor of a third of the sum. *)
Definition is_average_gray (r g b v : Z) : Prop :=
  v = (r + g + b) / 3 ∧ 3 * v <= r + g + b < 3 * v + 3.

(** The gray value of "weighted": the truncation [n] of the binary64 value
    of the weighted formula, which is its floor, the value being
    non-negative; the pixel holds [n] saturated at 255. *)
Definition is_weighted_gray (r g b v : Z) : Prop :=
  ∃ n, int_of_float (weighted_formula r g b) = Some n ∧
       floor_of_float (weighted_formula r g b) = Some n ∧
       0 <= n ∧ v = Z.min 255 n.

(** The expression the code evaluates on line 72 is the weighted
    formula. *)
Lemma weighted_sum_formula r g b : weighted_sum r g b = weighted_formula r g b.
Proof. reflexivity. Qed.

(** What a pixel of 8-bit samples becomes under a method other than
    "average". *)
Lemma weighted_gray_stored method r g b s :
  method ≠ "average" →
  (∃ v, gray_value method r g b = Some v ∧ s = clip8 v ∧
        pixel_in_range (r, g, b)) →
  is_weighted_gray r g b s.
Proof.
  intros Hm (v & Hv & -> & Hr & Hg & Hb).
  rewrite gray_value_not_average in Hv by exact Hm.
  destruct (gray_weighted_floor r g b Hr Hg Hb) as (v' & Hv' & Hfl & Hpos).
  rewrite Hv in Hv'. injection Hv' as <-.
  exists v. unfold gray_weighted in Hv.
  rewrite weighted_sum_formula in Hv, Hfl.
  split; [exact Hv|]. split; [exact Hfl|]. split; [exact Hpos|].
  apply clip8_min, Hpos.
Qed.

(** C3, as stated, fails twice.  On the pixel (0, 3, 9) the exact weighted
    sum is 3, but its binary64 evaluation is just below 3 and the filter
    writes 2.  On the white pixel the exact weighted sum is 280.5, and the
    pixel holds 255. *)
Lemma C3_weighted_exact_counterexample :
  grayscale_filter (uniform_image 1 1 (0, 3, 9)) "weighted"
  ≠ Some (uniform_image 1 1
            (gray_weighted_exact 0 3 9, gray_weighted_exact 0 3 9,
             gray_weighted_exact 0 3 9)) ∧
  grayscale_filter (uniform_image 1 1 (255, 255, 255)) "weighted"
  ≠ Some (uniform_image 1 1
            (gray_weighted_exact 255 255 255, gray_weighted_exact 255 255 255,
             gray_weighted_exact 255 255 255)).
Proof. split; vm_compute; discriminate. Qed.

(** C3, amended: on every pixel (r, g, b) of 8-bit samples, "average"
    writes (gray, gray, gray) with gray the floor of (r+g+b)/3, and
    "weighted" writes gray = min(255, n) with n the floor of the binary64
    value of 0.3*r + 0.7*g + 0.1*b, each product and sum rounded as Python
    rounds it; truncation and floor agree because that value is not
    negative, and the 8-bit store keeps 255 of a larger n.  On the pixel
    (9, 6, 3) "average" gives (6, 6, 6) and "weighted" (7, 7, 7); on
    (0, 3, 9) "weighted" gives (2, 2, 2), and on the white pixel
    (255, 255, 255). *)
Theorem C3_grayscale_values (im : Image) :
  wf_image im → image_in_range im →
  (∃ out, grayscale_filter im "average" = Some out ∧
          grayscale_post im is_average_gray out) ∧
  (∃ out, grayscale_filter im "weighted" = Some out ∧
          grayscale_post im is_weighted_gray out) ∧
  grayscale_filter (uniform_image 1 1 (9, 6, 3)) "average"
  = Some (uniform_image 1 1 (6, 6, 6)) ∧
  grayscale_filter (uniform_image 1 1 (9, 6, 3)) "weighted"
  = Some (uniform_image 1 1 (7, 7, 7)) ∧
  grayscale_filter (uniform_image 1 1 (0, 3, 9)) "weighted"
  = Some (uniform_image 1 1 (2, 2, 2)) ∧
  grayscale_filter (uniform_image 1 1 (255, 255, 255)) "weighted"
  = Some (uniform_image 1 1 (255, 255, 255)).
Proof.
  intros Hwf _.
  split; [|split; [|repeat split; vm_compute; reflexivity]].
  - destruct (grayscale_filter_total im "average" Hwf)
      as (out & Hout & _ & Hpost).
    exists out. split; [exact Hout|].
    eapply grayscale_post_impl; [|exact Hpost].
    intros r g b s (v & Hv & -> & Hr & Hg & Hb). unfold gray_value in Hv.
    rewrite bool_decide_true in Hv by reflexivity.
    injection Hv as <-.
    rewrite clip8_id by (apply gray_average_sample; assumption).
    unfold is_average_gray, gray_average.
    split; [reflexivity|].
    pose proof (Z.div_mod (r + g + b) 3 ltac:(lia)).
    pose proof (Z.mod_pos_bound (r + g + b) 3 ltac:(lia)). lia.
  - destruct (grayscale_filter_total im "weighted" Hwf)
      as (out & Hout & _ & Hpost).
    exists out. split; [exact Hout|].
    eapply grayscale_post_impl; [|exact Hpost].
    intros r g b s. apply weighted_gray_stored. discriminate.
Qed.

Lemma C3_grayscale_values_witness :
  (∃ out, grayscale_filter scenario_image "average" = Some out ∧
          grayscale_post scenario_image is_average_gray out) ∧
  (∃ out, grayscale_filter scenario_image "weighted" = Some out ∧
          grayscale_post scenario_image is_weighted_gray out) ∧
  grayscale_filter (uniform_image 1 1 (9, 6, 3)) "average"
  = Some (uniform_image 1 1 (6, 6, 6)) ∧
  grayscale_filter (uniform_image 1 1 (9, 6, 3)) "weighted"
  = Some (uniform_image 1 1 (7, 7, 7)) ∧
  grayscale_filter (uniform_image 1 1 (0, 3, 9)) "weighted"
  = Some (uniform_image 1 1 (2, 2, 2)) ∧
  grayscale_filter (uniform_image 1 1 (255, 255, 255)) "weighted"
  = Some (uniform_image 1 1 (255, 255, 255)).
Proof.
  apply (C3_grayscale_values scenario_image).
  - concrete_image.
  - repeat constructor; unfold sample; lia.
Defined.

(** ** High contrast *)

(** What [high_contrast_filter] owes its caller, given the grayscale
    image it starts from. *)
Definition high_contrast_post (gray : Image) (threshold : Z) (out : Image)
    : Prop :=
  out = map_image (threshold_pixel threshold) gray ∧
  ∀ x y, (x < width gray)%nat → (y < height gray)%nat →
    ∃ v, getpixel gray x y = Some (v, v, v) ∧
         getpixel out x y
         = Some (if v <? threshold then (0, 0, 0) else (255, 255, 255)) ∧
         (getpixel out x y = Some (0, 0, 0) ∨
          getpixel out x y = Some (255, 255, 255)) ∧
         (v = threshold → getpixel out x y = Some (255, 255, 255)).

(** C2: for both methods and every threshold from 0 to 255,
    [high_contrast_filter] is [grayscale_filter] followed by the strict
    comparison of each gray value with the threshold: below it the pixel
    becomes (0, 0, 0), otherwise (255, 255, 255); so every output pixel is
    one of the two, and a gray value equal to the threshold gives white. *)
Theorem C2_high_contrast (im : Image) (method : string) (threshold : Z) :
  wf_image im → image_in_range im →
  method = "average" ∨ method = "weighted" → 0 <= threshold <= 255 →
  ∃ gray out,
    grayscale_filter im method = Some gray ∧
    width gray = width im ∧ height gray = height im ∧
    high_contrast_filter im method threshold = Some out ∧
    high_contrast_post gray threshold out.
Proof.
  intros Hwf _ _ _.
  destruct (grayscale_filter_total im method Hwf)
    as (gray & Hgray & Hwfg & Hw & Hh & Hpx).
  exists gray, (map_image (threshold_pixel threshold) gray).
  split; [exact Hgray|]. split; [exact Hw|]. split; [exact Hh|].
  split; [exact (high_contrast_filter_map im method threshold gray Hgray
                   (proj1 Hwfg))|].
  split; [reflexivity|].
  intros x y Hx Hy.
  destruct (getpixel_is_Some im x y (proj1 Hwf) ltac:(lia) ltac:(lia))
    as [[[r g] b] Hp].
  destruct (Hpx x y r g b Hp) as (v & _ & Hget).
  exists v. split; [exact Hget|].
  rewrite map_image_getpixel, Hget. simpl.
  split; [reflexivity|]. split.
  - destruct (v <? threshold); auto.
  - intros ->. rewrite Z.ltb_irrefl. reflexivity.
Qed.

Lemma C2_high_contrast_witness :
  ∃ gray out,
    grayscale_filter scenario_image "weighted" = Some gray ∧
    width gray = width scenario_image ∧
    height gray = height scenario_image ∧
    high_contrast_filter scenario_image "weighted" 128 = Some out ∧
    high_contrast_post gray 128 out.
Proof.
  apply (C2_high_contrast scenario_image "weighted" 128).
  - concrete_image.
  - repeat constructor; unfold sample; lia.
  - right. reflexivity.
  - lia.
Defined.

(** ** Size and sample range *)

(** Every call the application can make on an image of 8-bit samples
    returns an image of the same size, of 8-bit samples again. *)
Lemma apply_filter_wf sel im :
  wf_image im → validated sel →
  ∃ out, apply_filter sel im = Some out ∧
         width out = width im ∧ height out = height im ∧ wf_image out.
Proof.
  intros Hwf Hval.
  destruct sel as [bs|m|m t| |channel|delta]; simpl in *.
  - destruct (mosaic_filter_pixels_are im bs Hwf ltac:(lia))
      as (out & Hout & Hw & Hh & _ & _).
    exists out. split; [exact Hout|]. split; [exact Hw|]. split; [exact Hh|].
    exact (mosaic_filter_wf im bs out (proj1 Hwf) ltac:(lia) Hout).
  - destruct (grayscale_filter_total im m Hwf)
      as (out & Hout & Hwfo & Hw & Hh & _).
    exists out. auto.
  - destruct (grayscale_filter_total im m Hwf)
      as (gray & Hgray & Hwfg & Hw & Hh & _).
    exists (map_image (threshold_pixel t) gray).
    rewrite (high_contrast_filter_map im m t gray Hgray (proj1 Hwfg)).
    split; [reflexivity|]. split; [exact Hw|]. split; [exact Hh|].
    apply map_image_wf; [|exact Hwfg].
    intros p _. apply threshold_pixel_in_range.
  - rewrite (negative_filter_map im Hwf).
    eexists. split; [reflexivity|]. split; [reflexivity|].
    split; [reflexivity|].
    apply map_image_wf; [apply negative_pixel_in_range | exact Hwf].
  - rewrite (rgb_filter_channel_only_map im channel Hwf).
    eexists. split; [reflexivity|]. split; [reflexivity|].
    split; [reflexivity|].
    apply map_image_wf; [apply channel_pixel_in_range | exact Hwf].
  - rewrite (brightness_filter_map im delta (proj1 Hwf)).
    eexists. split; [reflexivity|]. split; [reflexivity|].
    split; [reflexivity|].
    apply map_image_wf; [|exact Hwf].
    intros p _. apply brightness_pixel_in_range.
Qed.

(** C4: each of the six filters, called with parameters its widgets can
    return on an image of 8-bit samples, returns an image all of whose
    samples lie in [0, 255].  This holds for the weighted grayscale too:
    on a white pixel the gray value the code computes is 280, and the pixel
    it writes holds (255, 255, 255), the 8-bit store keeping 255 of a
    larger value. *)
Theorem C4_outputs_in_sample_range (sel : selected_filter) (im : Image) :
  wf_image im → image_in_range im → validated sel →
  (∃ out, apply_filter sel im = Some out ∧ image_in_range out) ∧
  gray_value "weighted" 255 255 255 = Some 280 ∧
  apply_filter (TonoDeGris "weighted") (uniform_image 1 1 (255, 255, 255))
  = Some (uniform_image 1 1 (255, 255, 255)).
Proof.
  intros Hwf _ Hval. split; [|split; vm_compute; reflexivity].
  destruct (apply_filter_wf sel im Hwf Hval) as (out & Hout & _ & _ & Hwfo).
  exists out. split; [exact Hout | apply Hwfo].
Qed.

Lemma C4_outputs_in_sample_range_witness :
  (∃ out, apply_filter (TonoDeGris "weighted") scenario_image = Some out ∧
          image_in_range out) ∧
  gray_value "weighted" 255 255 255 = Some 280 ∧
  apply_filter (TonoDeGris "weighted") (uniform_image 1 1 (255, 255, 255))
  = Some (uniform_image 1 1 (255, 255, 255)).
Proof.
  apply (C4_outputs_in_sample_range (TonoDeGris "weighted") scenario_image).
  - concrete_image.
  - repeat constructor; unfold sample; lia.
  - right. reflexivity.
Defined.

(** C5: each of the six filters, called with parameters its widgets can
    return on an image of 8-bit samples, returns an image of exactly the
    width and the height of its input. *)
Theorem C5_size_preserved (sel : selected_filter) (im : Image) :
  wf_image im → image_in_range im → validated sel →
  ∃ out, apply_filter sel im = Some out ∧
         width out = width im ∧ height out = height im ∧ wf_image out.
Proof.
  intros Hwf _ Hval. exact (apply_filter_wf sel im Hwf Hval).
Qed.

Lemma C5_size_preserved_witness :
  ∃ out, apply_filter (Mosaico 10) scenario_image = Some out ∧
         width out = width scenario_image ∧
         height out = height scenario_image ∧ wf_image out.
Proof.
  apply (C5_size_preserved (Mosaico 10) scenario_image).
  - concrete_image.
  - repeat constructor; unfold sample; lia.
  - simpl. lia.
Defined.

(** ** The method of the grayscale filter *)





(** C10, as stated, fails on a bright pixel: with the method "sepia" the
    white pixel has int(0.3*255 + 0.7*255 + 0.1*255) = 280, and the pixel
    the filter returns holds 255. *)
Lemma C10_white_pixel_counterexample :
  int_of_float (weighted_formula 255 255 255) = Some 280 ∧
  ¬ ∃ out,
      grayscale_filter (uniform_image 1 1 (255, 255, 255)) "sepia"
      = Some out ∧
      grayscale_post (uniform_image 1 1 (255, 255, 255))
        (λ r g b v, int_of_float (weighted_formula r g b) = Some v) out.
Proof.
  split; [vm_compute; reflexivity|].
  intros (out & Hout & _ & _ & Hpx).
  vm_compute in Hout. injection Hout as <-.
  destruct (Hpx 0%nat 0%nat 255 255 255 eq_refl) as (v & Hv & Hget).
  vm_compute in Hv. vm_compute in Hget. congruence.
Qed.

(** C10, amended: for any two methods other than "average" the filter
    returns the same thing, never rejects the call on an image of 8-bit
    samples, and every pixel it returns holds
    min(255, int(0.3*r + 0.7*g + 0.1*b)) in its three channels, the 8-bit
    store keeping 255 of a larger value.  With the method "sepia" the
    pixel (9, 6, 3) becomes (7, 7, 7), the pixel (255, 255, 10), whose
    formula gives 256, becomes (255, 255, 255), and so does the white
    pixel. *)
Theorem C10_non_average_is_weighted (im : Image) (m1 m2 : string) :
  m1 ≠ "average" → m2 ≠ "average" →
  grayscale_filter im m1 = grayscale_filter im m2 ∧
  (wf_image im → image_in_range im →
   ∃ out, grayscale_filter im m1 = Some out ∧
          grayscale_post im
            (λ r g b v, ∃ n, int_of_float (weighted_formula r g b) = Some n ∧
                             v = Z.min 255 n) out) ∧
  grayscale_filter (uniform_image 1 1 (9, 6, 3)) "sepia"
  = Some (uniform_image 1 1 (7, 7, 7)) ∧
  int_of_float (weighted_formula 255 255 10) = Some 256 ∧
  grayscale_filter (uniform_image 1 1 (255, 255, 10)) "sepia"
  = Some (uniform_image 1 1 (255, 255, 255)) ∧
  grayscale_filter (uniform_image 1 1 (255, 255, 255)) "sepia"
  = Some (uniform_image 1 1 (255, 255, 255)).
Proof.
  intros H1 H2. split; [|split; [|repeat split; vm_compute; reflexivity]].
  - rewrite (grayscale_filter_not_average im m1 H1).
    rewrite (grayscale_filter_not_average im m2 H2). reflexivity.
  - intros Hwf _.
    destruct (grayscale_filter_total im m1 Hwf)
      as (out & Hout & _ & Hpost).
    exists out. split; [exact Hout|].
    eapply grayscale_post_impl; [|exact Hpost].
    intros r g b s Hs.
    destruct (weighted_gray_stored m1 r g b s H1 Hs)
      as (n & Hn & _ & _ & ->).
    exists n. split; [exact Hn | reflexivity].
Qed.

Lemma C10_non_average_is_weighted_witness :
  grayscale_filter scenario_image "weighted"
  = grayscale_filter scenario_image "sepia" ∧
  (wf_image scenario_image → image_in_range scenario_image →
   ∃ out, grayscale_filter scenario_image "weighted" = Some out ∧
          grayscale_post scenario_image
            (λ r g b v, ∃ n, int_of_float (weighted_formula r g b) = Some n ∧
                             v = Z.min 255 n) out) ∧
  grayscale_filter (uniform_image 1 1 (9, 6, 3)) "sepia"
  = Some (uniform_image 1 1 (7, 7, 7)) ∧
  int_of_float (weighted_formula 255 255 10) = Some 256 ∧
  grayscale_filter (uniform_image 1 1 (255, 255, 10)) "sepia"
  = Some (uniform_image 1 1 (255, 255, 255)) ∧
  grayscale_filter (uniform_image 1 1 (255, 255, 255)) "sepia"
  = Some (uniform_image 1 1 (255, 255, 255)).
Proof.
  apply (C10_non_average_is_weighted scenario_image "weighted" "sepia");
    discriminate.
Defined.

(** ** Sample range of the results *)

(** Every call the application can make keeps samples in the range of 8
    bits. *)
Lemma filters_keep_sample_range sel im :
  wf_image im → validated sel →
  ∃ out, apply_filter sel im = Some out ∧ image_in_range out.
Proof.
  intros Hwf Hval.
  destruct (apply_filter_wf sel im Hwf Hval) as (out & Hout & _ & _ & Hwfo).
  exists out. split; [exact Hout | apply Hwfo].
Qed.

(** * Further properties of the filters *)

(** ** Maps over images *)

Lemma map_image_const c im :
  image_shape im →
  map_image (λ _, c) im = uniform_image (width im) (height im) c.
Proof.
  intros [Hh Hw]. unfold map_image, uniform_image. f_equal.
  rewrite <- Hh. clear Hh.
  induction Hw as [|row rws Hrow _ IH]; simpl; [reflexivity|].
  f_equal; [|exact IH].
  rewrite <- Hrow. apply const_fmap. reflexivity.
Qed.

Lemma uniform_image_shape w h p : image_shape (uniform_image w h p).
Proof.
  split; simpl.
  - apply length_replicate.
  - apply Forall_replicate. apply length_replicate.
Qed.

(** ** Channel isolation *)

(** X11: with a channel name that is none of "red", "green" and "blue"
    the filter takes its last branch and returns the image unchanged. *)
Theorem X11_channel_unknown_is_identity (im : Image) (channel : string) :
  wf_image im →
  channel ≠ "red" → channel ≠ "green" → channel ≠ "blue" →
  rgb_filter_channel_only im channel = Some im.
Proof.
  intros Hwf Hr Hg Hb.
  rewrite (rgb_filter_channel_only_map im channel Hwf). f_equal.
  apply map_image_id. intros x y [[r g] b] _. unfold channel_pixel.
  rewrite !bool_decide_false by assumption. reflexivity.
Qed.

Lemma X11_channel_unknown_is_identity_witness :
  rgb_filter_channel_only scenario_image "RED" = Some scenario_image.
Proof.
  apply (X11_channel_unknown_is_identity scenario_image "RED").
  - concrete_image.
  - discriminate.
  - discriminate.
  - discriminate.
Defined.

(** X12: isolating one channel twice is isolating it once, and isolating
    two different channels among red, green and blue one after the other
    leaves the black image. *)
Theorem X12_channel_twice (im : Image) (c1 c2 : string) :
  wf_image im →
  c1 = "red" ∨ c1 = "green" ∨ c1 = "blue" →
  c2 = "red" ∨ c2 = "green" ∨ c2 = "blue" →
  ∃ mid, rgb_filter_channel_only im c1 = Some mid ∧
         rgb_filter_channel_only mid c2
         = Some (if bool_decide (c1 = c2) then mid
                 else uniform_image (width im) (height im) (0, 0, 0)).
Proof.
  intros Hwf H1 H2.
  exists (map_image (channel_pixel c1) im).
  split; [apply rgb_filter_channel_only_map, Hwf|].
  rewrite rgb_filter_channel_only_map
    by (apply map_image_wf; [apply channel_pixel_in_range | exact Hwf]).
  rewrite map_image_compose. f_equal.
  case_bool_decide as Heq.
  - subst c2. apply map_image_ext. intros x y [[r g] b] _.
    destruct H1 as [->|[->| ->]]; reflexivity.
  - rewrite <- (map_image_const (0, 0, 0) im (proj1 Hwf)).
    apply map_image_ext. intros x y [[r g] b] _.
    destruct H1 as [->|[->| ->]], H2 as [->|[->| ->]];
      try reflexivity; congruence.
Qed.

Lemma X12_channel_twice_witness :
  ∃ mid, rgb_filter_channel_only scenario_image "red" = Some mid ∧
         rgb_filter_channel_only mid "blue"
         = Some (if bool_decide ("red" = "blue") then mid
                 else uniform_image (width scenario_image)
                        (height scenario_image) (0, 0, 0)).
Proof.
  apply (X12_channel_twice scenario_image "red" "blue").
  - concrete_image.
  - left. reflexivity.
  - right. right. reflexivity.
Defined.

(** Two well-formed images of one size are equal when they agree pixel by
    pixel. *)
Lemma image_eq_pointwise im1 im2 :
  image_shape im1 → image_shape im2 →
  width im1 = width im2 → height im1 = height im2 →
  (∀ x y, (x < width im1)%nat → (y < height im1)%nat →
          getpixel im1 x y = getpixel im2 x y) →
  im1 = im2.
Proof.
  intros Hwf1 Hwf2 Hw Hh Hpx.
  apply (pixels_are_inj im1 im2 (width im2) (height im2) (grid_of im2)).
  - repeat split; try assumption; try apply Hwf1.
    intros x y Hx Hy. rewrite Hpx by lia.
    destruct (pixels_are_grid_of im2 Hwf2) as (_ & _ & _ & Hget).
    apply Hget; assumption.
  - apply pixels_are_grid_of, Hwf2.
Qed.

(** ** Brightness *)

(** X13: on an image of 8-bit samples the two ends of the slider erase the
    picture: a delta of 255 returns the white image and a delta of -255
    the black image. *)
Theorem X13_brightness_extremes (im : Image) :
  wf_image im → image_in_range im →
  brightness_filter im 255
  = Some (uniform_image (width im) (height im) (255, 255, 255)) ∧
  brightness_filter im (-255)
  = Some (uniform_image (width im) (height im) (0, 0, 0)).
Proof.
  intros [Hwf _] Hrange.
  split; rewrite (brightness_filter_map im _ Hwf); f_equal;
    rewrite <- (map_image_const _ im Hwf);
    apply map_image_ext; intros x y [[r g] b] Hp;
    pose proof (image_in_range_getpixel im x y _ Hrange Hp) as (Hr & Hg & Hb);
    unfold brightness_pixel, clamp, sample in *; pair_eq.
Qed.

Lemma X13_brightness_extremes_witness :
  brightness_filter scenario_image 255
  = Some (uniform_image (width scenario_image) (height scenario_image)
            (255, 255, 255)) ∧
  brightness_filter scenario_image (-255)
  = Some (uniform_image (width scenario_image) (height scenario_image)
            (0, 0, 0)).
Proof.
  apply (X13_brightness_extremes scenario_image).
  - concrete_image.
  - repeat constructor; unfold sample; lia.
Defined.

(** X14: on an image of 8-bit samples two adjustments of the same sign add
    up: brightening (or darkening) by [a] and then by [b] is brightening
    (or darkening) by [a + b]. *)
Theorem X14_brightness_same_sign_adds (im : Image) (a b : Z) :
  wf_image im → image_in_range im →
  (0 <= a ∧ 0 <= b) ∨ (a <= 0 ∧ b <= 0) →
  ∃ mid, brightness_filter im a = Some mid ∧
         brightness_filter mid b = brightness_filter im (a + b).
Proof.
  intros [Hwf _] Hrange Hsign.
  exists (map_image (brightness_pixel a) im).
  split; [apply brightness_filter_map, Hwf|].
  rewrite brightness_filter_map by apply map_image_shape, Hwf.
  rewrite (brightness_filter_map im (a + b) Hwf).
  rewrite map_image_compose. f_equal.
  apply map_image_ext. intros x y [[r g] b'] Hp.
  pose proof (image_in_range_getpixel im x y _ Hrange Hp) as (Hr & Hg & Hb).
  simpl. unfold brightness_pixel, clamp, sample in *. pair_eq.
Qed.

Lemma X14_brightness_same_sign_adds_witness :
  ∃ mid, brightness_filter scenario_image 100 = Some mid ∧
         brightness_filter mid 50 = brightness_filter scenario_image (100 + 50).
Proof.
  apply (X14_brightness_same_sign_adds scenario_image 100 50).
  - concrete_image.
  - repeat constructor; unfold sample; lia.
  - left. lia.
Defined.



(** X16: the negative of a brightened image is the darkened negative:
    [negative_filter] after [brightness_filter] with delta [d] is
    [brightness_filter] with delta [-d] after [negative_filter]. *)
Theorem X16_negative_of_brightness (im : Image) (delta : Z) :
  wf_image im →
  ∃ bright neg,
    brightness_filter im delta = Some bright ∧
    negative_filter im = Some neg ∧
    negative_filter bright = brightness_filter neg (- delta).
Proof.
  intros Hwf.
  exists (map_image (brightness_pixel delta) im),
         (map_image negative_pixel im).
  split; [apply brightness_filter_map, Hwf|].
  split; [apply negative_filter_map, Hwf|].
  rewrite negative_filter_map
    by (apply map_image_wf; [|exact Hwf];
        intros p _; apply brightness_pixel_in_range).
  rewrite brightness_filter_map by apply map_image_shape, Hwf.
  rewrite !map_image_compose. f_equal.
  apply map_image_ext. intros x y [[r g] b] _. simpl.
  unfold negative_pixel, brightness_pixel, clamp. pair_eq.
Qed.

Lemma X16_negative_of_brightness_witness :
  ∃ bright neg,
    brightness_filter scenario_image 40 = Some bright ∧
    negative_filter scenario_image = Some neg ∧
    negative_filter bright = brightness_filter neg (- 40).
Proof.
  apply (X16_negative_of_brightness scenario_image 40).
  concrete_image.
Defined.

(** ** Grayscale and high contrast *)

Lemma gray_value_average r g b :
  gray_value "average" r g b = Some ((r + g + b) / 3).
Proof. reflexivity. Qed.

(** X8: the average grayscale of an image that already is an average
    grayscale is the image itself. *)
Theorem X8_grayscale_average_idempotent (im : Image) :
  wf_image im →
  ∃ gray, grayscale_filter im "average" = Some gray ∧
          grayscale_filter gray "average" = Some gray.
Proof.
  intros Hwf.
  destruct (grayscale_filter_total im "average" Hwf)
    as (gray & Hgray & Hwfg & Hw & Hh & Hpx).
  exists gray. split; [exact Hgray|].
  destruct (grayscale_filter_total gray "average" Hwfg)
    as (gray2 & Hgray2 & Hwfg2 & Hw2 & Hh2 & Hpx2).
  rewrite Hgray2. f_equal.
  apply image_eq_pointwise; [apply Hwfg2 | apply Hwfg | assumption..|].
  intros x y Hx Hy.
  destruct (getpixel_is_Some im x y (proj1 Hwf) ltac:(lia) ltac:(lia))
    as [[[r g] b] Hp].
  destruct (Hpx x y _ _ _ Hp) as (s & (v & Hv & -> & Hr & Hg & Hb) & Hget).
  rewrite gray_value_average in Hv. injection Hv as <-.
  rewrite clip8_id in Hget by (apply gray_average_sample; assumption).
  destruct (Hpx2 x y _ _ _ Hget) as (s2 & (v2 & Hv2 & -> & _) & Hget2).
  rewrite gray_value_average in Hv2. injection Hv2 as <-.
  rewrite Hget, Hget2.
  replace ((r + g + b) / 3 + (r + g + b) / 3 + (r + g + b) / 3)
    with ((r + g + b) / 3 * 3) by lia.
  rewrite Z.div_mul by lia.
  rewrite clip8_id by (apply gray_average_sample; assumption). reflexivity.
Qed.

Lemma X8_grayscale_average_idempotent_witness :
  ∃ gray, grayscale_filter scenario_image "average" = Some gray ∧
          grayscale_filter gray "average" = Some gray.
Proof.
  apply (X8_grayscale_average_idempotent scenario_image).
  concrete_image.
Defined.

(** The image [high_contrast_filter] returns on 8-bit samples: each pixel
    is black when its gray value is below the threshold and white
    otherwise, and the gray value is not negative. *)
Lemma high_contrast_filter_pixels im method threshold :
  wf_image im →
  ∃ out, high_contrast_filter im method threshold = Some out ∧
         wf_image out ∧ width out = width im ∧ height out = height im ∧
         ∀ x y, (x < width im)%nat → (y < height im)%nat →
           ∃ v, 0 <= v ∧
                getpixel out x y
                = Some (if v <? threshold then (0, 0, 0)
                        else (255, 255, 255)).
Proof.
  intros Hwf.
  destruct (grayscale_filter_total im method Hwf)
    as (gray & Hgray & Hwfg & Hw & Hh & Hpx).
  exists (map_image (threshold_pixel threshold) gray).
  split; [exact (high_contrast_filter_map im method threshold gray Hgray
                   (proj1 Hwfg))|].
  split.
  { apply map_image_wf; [|exact Hwfg].
    intros p _. apply threshold_pixel_in_range. }
  split; [exact Hw|]. split; [exact Hh|].
  intros x y Hx Hy.
  destruct (getpixel_is_Some im x y (proj1 Hwf) Hx Hy) as [[[r g] b] Hp].
  destruct (Hpx x y r g b Hp) as (s & (v & _ & -> & _) & Hget).
  exists (clip8 v). split; [apply clip8_sample|].
  rewrite map_image_getpixel, Hget. reflexivity.
Qed.

Lemma gray_value_black_white method :
  gray_value method 0 0 0 = Some 0 ∧
  ∃ v, gray_value method 255 255 255 = Some v ∧ 255 <= v.
Proof.
  unfold gray_value. case_bool_decide.
  - split; [reflexivity|]. exists 255. split; [reflexivity|lia].
  - split; [vm_compute; reflexivity|].
    exists 280. split; [vm_compute; reflexivity|lia].
Qed.

(** X9: for every threshold from 0 to 255 and either method, the high
    contrast of a high-contrast image is the image itself. *)
Theorem X9_high_contrast_idempotent (im : Image) (method : string)
    (threshold : Z) :
  wf_image im → image_in_range im → 0 <= threshold <= 255 →
  ∃ out, high_contrast_filter im method threshold = Some out ∧
         high_contrast_filter out method threshold = Some out.
Proof.
  intros Hwf _ Ht.
  destruct (high_contrast_filter_pixels im method threshold Hwf)
    as (out & Hout & Hwfo & Hw & Hh & Hpx).
  exists out. split; [exact Hout|].
  destruct (grayscale_filter_total out method Hwfo)
    as (gray & Hgray & Hwfg & Hwg & Hhg & Hpxg).
  rewrite (high_contrast_filter_map out method threshold gray Hgray
             (proj1 Hwfg)).
  f_equal. apply image_eq_pointwise.
  - apply map_image_shape, Hwfg.
  - apply Hwfo.
  - exact Hwg.
  - exact Hhg.
  - simpl. intros x y Hx Hy.
    destruct (Hpx x y ltac:(lia) ltac:(lia)) as (v & Hv & Hget).
    destruct (gray_value_black_white method) as (Hblack & w & Hwhite & Hw255).
    rewrite map_image_getpixel, Hget.
    destruct (Z.ltb_spec v threshold) as [Hlt|Hge].
    + destruct (Hpxg x y 0 0 0) as (s' & (v' & Hv' & -> & _) & Hget').
      { rewrite Hget. destruct (Z.ltb_spec v threshold); [reflexivity|lia]. }
      rewrite Hget'. simpl. rewrite Hblack in Hv'. injection Hv' as <-.
      change (clip8 0) with 0.
      destruct (Z.ltb_spec 0 threshold); [reflexivity|lia].
    + destruct (Hpxg x y 255 255 255) as (s' & (v' & Hv' & -> & _) & Hget').
      { rewrite Hget. destruct (Z.ltb_spec v threshold); [lia|reflexivity]. }
      rewrite Hget'. simpl. rewrite Hwhite in Hv'. injection Hv' as <-.
      rewrite (clip8_top w Hw255).
      destruct (Z.ltb_spec 255 threshold); [lia|reflexivity].
Qed.

Lemma X9_high_contrast_idempotent_witness :
  ∃ out, high_contrast_filter scenario_image "weighted" 128 = Some out ∧
         high_contrast_filter out "weighted" 128 = Some out.
Proof.
  apply (X9_high_contrast_idempotent scenario_image "weighted" 128).
  - concrete_image.
  - repeat constructor; unfold sample; lia.
  - lia.
Defined.

(** X10: with the threshold 0 no gray value is below the threshold, and
    the filter returns the white image. *)
Theorem X10_high_contrast_threshold_zero (im : Image) (method : string) :
  wf_image im → image_in_range im →
  high_contrast_filter im method 0
  = Some (uniform_image (width im) (height im) (255, 255, 255)).
Proof.
  intros Hwf _.
  destruct (high_contrast_filter_pixels im method 0 Hwf)
    as (out & Hout & Hwfo & Hw & Hh & Hpx).
  rewrite Hout. f_equal. apply image_eq_pointwise.
  - apply Hwfo.
  - apply uniform_image_shape.
  - exact Hw.
  - exact Hh.
  - intros x y Hx Hy.
    destruct (Hpx x y ltac:(lia) ltac:(lia)) as (v & Hv & Hget).
    rewrite Hget. destruct (Z.ltb_spec v 0); [lia|].
    unfold getpixel, uniform_image. simpl.
    rewrite lookup_replicate_2 by lia. simpl.
    rewrite lookup_replicate_2 by lia. reflexivity.
Qed.

Lemma X10_high_contrast_threshold_zero_witness :
  high_contrast_filter scenario_image "average" 0
  = Some (uniform_image (width scenario_image) (height scenario_image)
            (255, 255, 255)).
Proof.
  apply (X10_high_contrast_threshold_zero scenario_image "average").
  - concrete_image.
  - repeat constructor; unfold sample; lia.
Defined.

(** ** Mosaic *)

(** All the pixels of an image, row by row. *)
Definition image_pixels (im : Image) : list pixel := row ← rows im; row.

Lemma block_pixels_Forall (P : pixel → Prop) im x y bs :
  (∀ i j p, (i < bs)%nat → (j < bs)%nat →
            getpixel im (x + i) (y + j) = Some p → P p) →
  Forall P (block_pixels im x y bs).
Proof.
  intros HP. unfold block_pixels. apply Forall_bind.
  apply Forall_lookup. intros j row Hrow.
  apply lookup_take_Some in Hrow as [Hrow Hj].
  rewrite lookup_drop in Hrow. simpl.
  apply Forall_lookup. intros i p Hp.
  apply lookup_take_Some in Hp as [Hp Hi].
  rewrite lookup_drop in Hp.
  apply (HP i j p Hi Hj). unfold getpixel. rewrite Hrow. exact Hp.
Qed.

Lemma channel_sum_const f c l :
  Forall (λ p, p = c) l → channel_sum f l = f c * Z.of_nat (length l).
Proof.
  unfold channel_sum. induction 1 as [|p l -> _ IH]; simpl; [lia|].
  rewrite IH. lia.
Qed.

Lemma mean_colour_const c l :
  Forall (λ p, p = c) l → (0 < length l)%nat → mean_colour l = c.
Proof.
  intros Hl Hne. unfold mean_colour.
  rewrite !(channel_sum_const _ c l Hl).
  rewrite !Z.div_mul by lia. destruct c as [[r g] b]. reflexivity.
Qed.

(** X1: [mosaic_filter] raises exactly when the block size is 0: then
    [range(0, height, 0)] raises before any pixel is read, and with any
    other block size the filter returns an image. *)
Theorem X1_mosaic_raises_iff_zero_block (im : Image) (block_size : nat) :
  wf_image im →
  mosaic_filter im block_size = None ↔ block_size = 0%nat.
Proof.
  intros Hwf. split.
  - intros Hnone. destruct block_size as [|bs]; [reflexivity|].
    destruct (mosaic_filter_pixels_are im (S bs) Hwf ltac:(lia))
      as (out & Hout & _).
    congruence.
  - intros ->. reflexivity.
Qed.

Lemma X1_mosaic_raises_iff_zero_block_witness :
  mosaic_filter scenario_image 0 = None ↔ 0%nat = 0%nat.
Proof.
  apply (X1_mosaic_raises_iff_zero_block scenario_image 0).
  concrete_image.
Defined.

(** X2: with blocks of one pixel the mosaic of an image is the image. *)
Theorem X2_mosaic_block_one_is_identity (im : Image) :
  wf_image im → mosaic_filter im 1 = Some im.
Proof.
  intros Hwf.
  destruct (mosaic_filter_pixels_are im 1 Hwf ltac:(lia))
    as (out & Hout & Hpx).
  rewrite Hout. f_equal.
  apply (pixels_are_inj out im _ _ _ Hpx).
  eapply pixels_are_ext; [apply pixels_are_grid_of, Hwf|].
  intros x y Hx Hy. unfold mosaic_colour, grid_of.
  rewrite (block_corner_in x 1 x), (block_corner_in y 1 y) by lia.
  rewrite !Nat.mul_1_r.
  destruct Hwf as [[Hh Hw] _].
  destruct (lookup_lt_is_Some_2 (rows im) y) as [row Hrow]; [lia|].
  rewrite Forall_lookup in Hw. pose proof (Hw _ _ Hrow) as Hlen.
  destruct (lookup_lt_is_Some_2 row x) as [[[r g] b] Hp]; [lia|].
  unfold getpixel, block_pixels. rewrite Hrow. simpl. rewrite Hp. simpl.
  rewrite (drop_S _ _ _ Hrow). simpl. rewrite (drop_S _ _ _ Hp). simpl.
  unfold mean_colour, channel_sum. simpl.
  rewrite !Z.add_0_r, !Z.div_1_r. reflexivity.
Qed.

Lemma X2_mosaic_block_one_is_identity_witness :
  mosaic_filter scenario_image 1 = Some scenario_image.
Proof.
  apply (X2_mosaic_block_one_is_identity scenario_image).
  concrete_image.
Defined.

(** X3: when one block covers the whole image, the mosaic is the image
    filled with the mean colour of all its pixels. *)
Theorem X3_mosaic_one_block (im : Image) (block_size : nat) :
  wf_image im → (0 < block_size)%nat →
  (width im ≤ block_size)%nat → (height im ≤ block_size)%nat →
  mosaic_filter im block_size
  = Some (uniform_image (width im) (height im)
            (mean_colour (image_pixels im))).
Proof.
  intros Hwf Hbs Hw Hh.
  destruct (mosaic_filter_pixels_are im block_size Hwf Hbs)
    as (out & Hout & Hwo & Hho & Hwfo & Hpx).
  rewrite Hout. f_equal. apply image_eq_pointwise.
  - exact Hwfo.
  - apply uniform_image_shape.
  - exact Hwo.
  - exact Hho.
  - intros x y Hx Hy. rewrite Hpx by lia.
    unfold getpixel, uniform_image. simpl.
    rewrite lookup_replicate_2 by lia. simpl.
    rewrite lookup_replicate_2 by lia. f_equal.
    unfold mosaic_colour.
    rewrite !(block_corner_in 0 block_size) by lia. simpl.
    f_equal. unfold block_pixels, image_pixels. rewrite drop_0.
    destruct Hwf as [[Hlen Hrows] _].
    rewrite take_ge by lia.
    apply Forall_bind_ext. eapply Forall_impl; [exact Hrows|].
    intros row Hrow. simpl in *. rewrite drop_0. apply take_ge. lia.
Qed.

Lemma X3_mosaic_one_block_witness :
  mosaic_filter scenario_image 10
  = Some (uniform_image (width scenario_image) (height scenario_image)
            (mean_colour (image_pixels scenario_image))).
Proof.
  apply (X3_mosaic_one_block scenario_image 10).
  - concrete_image.
  - lia.
  - simpl. lia.
  - simpl. lia.
Defined.

(** In a mosaic every block is of one colour, so the mean colour of a
    block of the mosaic is the colour of the block. *)
Lemma mosaic_colour_of_mosaic im bs out x y :
  image_shape im → (0 < bs)%nat →
  pixels_are out (width im) (height im) (mosaic_colour im bs) →
  (x < width im)%nat → (y < height im)%nat →
  mosaic_colour out bs x y = mosaic_colour im bs x y.
Proof.
  intros Hwf Hbs (Hw & Hh & Hwfo & Hpx) Hx Hy.
  pose proof (block_corner_le bs x) as Hcx.
  pose proof (block_corner_le bs y) as Hcy.
  assert (Ex : block_corner bs x = (x / bs * bs)%nat) by reflexivity.
  assert (Ey : block_corner bs y = (y / bs * bs)%nat) by reflexivity.
  unfold mosaic_colour at 1.
  apply mean_colour_const.
  - apply block_pixels_Forall. intros i j p Hi Hj Hp.
    destruct (getpixel_Some out _ _ p Hwfo Hp) as [Hx' Hy'].
    rewrite Hpx in Hp by lia. injection Hp as <-.
    unfold mosaic_colour.
    rewrite (block_corner_in (x / bs) bs (block_corner bs x + i)) by lia.
    rewrite (block_corner_in (y / bs) bs (block_corner bs y + j)) by lia.
    rewrite Ex, Ey. reflexivity.
  - apply block_pixels_nonempty; [exact Hwfo | lia | lia | exact Hbs].
Qed.

(** X4: the mosaic of a mosaic, with the same block size, is the mosaic
    itself. *)
Theorem X4_mosaic_idempotent (im : Image) (block_size : nat) :
  wf_image im → (0 < block_size)%nat →
  ∃ out, mosaic_filter im block_size = Some out ∧
         mosaic_filter out block_size = Some out.
Proof.
  intros Hwf Hbs.
  destruct (mosaic_filter_pixels_are im block_size Hwf Hbs)
    as (out & Hout & Hpx).
  exists out. split; [exact Hout|].
  pose proof Hpx as (Hw & Hh & _ & _).
  pose proof (mosaic_filter_wf im block_size out (proj1 Hwf) Hbs Hout)
    as Hwfo.
  destruct (mosaic_filter_pixels_are out block_size Hwfo Hbs)
    as (out2 & Hout2 & Hpx2).
  rewrite Hout2. f_equal. rewrite Hw, Hh in Hpx2.
  apply (pixels_are_inj out2 out _ _ _ Hpx2).
  eapply pixels_are_ext; [exact Hpx|].
  intros x y Hx Hy. symmetry.
  apply mosaic_colour_of_mosaic; [apply Hwf | assumption..].
Qed.

Lemma X4_mosaic_idempotent_witness :
  ∃ out, mosaic_filter scenario_image 2 = Some out ∧
         mosaic_filter out 2 = Some out.
Proof.
  apply (X4_mosaic_idempotent scenario_image 2).
  - concrete_image.
  - lia.
Defined.

Lemma bind_block_row_fmap (f : pixel → pixel) x bs (l : list (list pixel)) :
  (row ← (fmap (M:=list) f <$> l); take bs (drop x row))
  = f <$> (row ← l; take bs (drop x row)).
Proof.
  induction l as [|row l IH]; csimpl; [reflexivity|].
  rewrite fmap_app, IH, fmap_take, fmap_drop. reflexivity.
Qed.

Lemma block_pixels_map_image f im x y bs :
  block_pixels (map_image f im) x y bs = f <$> block_pixels im x y bs.
Proof.
  unfold block_pixels, map_image. simpl.
  change (map (map f) (rows im)) with (fmap (M:=list) f <$> rows im).
  rewrite <- fmap_drop, <- fmap_take. apply bind_block_row_fmap.
Qed.

Lemma channel_sum_fmap f (g : pixel → pixel) l :
  channel_sum f (g <$> l) = channel_sum (λ p, f (g p)) l.
Proof.
  unfold channel_sum. induction l as [|p l IH]; csimpl; [reflexivity|].
  rewrite IH. reflexivity.
Qed.

Lemma channel_sum_ext f g l :
  (∀ p, f p = g p) → channel_sum f l = channel_sum g l.
Proof.
  intros Hfg. unfold channel_sum.
  induction l as [|p l IH]; simpl; [reflexivity|]. rewrite IH, Hfg.
  reflexivity.
Qed.

Lemma channel_sum_zero l : channel_sum (λ _, 0) l = 0.
Proof.
  unfold channel_sum. induction l as [|p l IH]; simpl; [reflexivity|].
  rewrite IH. reflexivity.
Qed.

Lemma channel_pixel_cases channel :
  (∀ p, channel_pixel channel p = (red p, 0, 0)) ∨
  (∀ p, channel_pixel channel p = (0, green p, 0)) ∨
  (∀ p, channel_pixel channel p = (0, 0, blue p)) ∨
  (∀ p, channel_pixel channel p = p).
Proof.
  destruct (decide (channel = "red")) as [->|Hr].
  { left. intros [[r g] b]. reflexivity. }
  destruct (decide (channel = "green")) as [->|Hg].
  { right. left. intros [[r g] b]. reflexivity. }
  destruct (decide (channel = "blue")) as [->|Hb].
  { right. right. left. intros [[r g] b]. reflexivity. }
  right. right. right. intros [[r g] b]. unfold channel_pixel.
  rewrite !bool_decide_false by assumption. reflexivity.
Qed.

(** The mean colour of the isolated channel is the isolated channel of
    the mean colour. *)
Lemma mean_colour_channel channel l :
  mean_colour (channel_pixel channel <$> l)
  = channel_pixel channel (mean_colour l).
Proof.
  unfold mean_colour. rewrite length_fmap, !channel_sum_fmap.
  destruct (channel_pixel_cases channel) as [H|[H|[H|H]]]; rewrite H;
    rewrite !(channel_sum_ext _ _ l (λ p, f_equal _ (H p)));
    unfold red, green, blue; simpl;
    rewrite ?channel_sum_zero, ?Zdiv_0_l; reflexivity.
Qed.

(** X5: isolating a channel of the mosaic is the mosaic of the isolated
    channel, for every channel name and every block size of at least 1. *)
Theorem X5_mosaic_channel_commute (im : Image) (block_size : nat)
    (channel : string) :
  wf_image im → (0 < block_size)%nat →
  ∃ mosaic isolated,
    mosaic_filter im block_size = Some mosaic ∧
    rgb_filter_channel_only im channel = Some isolated ∧
    rgb_filter_channel_only mosaic channel
    = mosaic_filter isolated block_size.
Proof.
  intros Hwf Hbs.
  destruct (mosaic_filter_pixels_are im block_size Hwf Hbs)
    as (out & Hout & Hpx).
  exists out, (map_image (channel_pixel channel) im).
  split; [exact Hout|].
  split; [apply rgb_filter_channel_only_map, Hwf|].
  pose proof (mosaic_filter_wf im block_size out (proj1 Hwf) Hbs Hout)
    as Hwfo.
  rewrite (rgb_filter_channel_only_map out channel Hwfo).
  destruct (mosaic_filter_pixels_are (map_image (channel_pixel channel) im)
              block_size
              (map_image_wf _ im (channel_pixel_in_range channel) Hwf) Hbs)
    as (out2 & Hout2 & Hpx2).
  rewrite Hout2. f_equal. simpl in Hpx2.
  apply (pixels_are_inj _ out2 (width im) (height im)
           (mosaic_colour (map_image (channel_pixel channel) im) block_size));
    [|exact Hpx2].
  eapply pixels_are_ext;
    [exact (map_image_pixels_are out _ _ _ (channel_pixel channel) Hpx)|].
  intros x y _ _. simpl. unfold mosaic_colour.
  rewrite block_pixels_map_image. symmetry. apply mean_colour_channel.
Qed.

Lemma X5_mosaic_channel_commute_witness :
  ∃ mosaic isolated,
    mosaic_filter scenario_image 2 = Some mosaic ∧
    rgb_filter_channel_only scenario_image "green" = Some isolated ∧
    rgb_filter_channel_only mosaic "green" = mosaic_filter isolated 2.
Proof.
  apply (X5_mosaic_channel_commute scenario_image 2 "green").
  - concrete_image.
  - lia.
Defined.

(** X6: called with parameters its widgets can return on an image of 8-bit
    samples, every filter except the weighted grayscale returns an image
    of 8-bit samples. *)
Theorem X6_sample_range_kept (sel : selected_filter) (im : Image) :
  wf_image im → image_in_range im → validated sel →
  sel ≠ TonoDeGris "weighted" →
  ∃ out, apply_filter sel im = Some out ∧ image_in_range out.
Proof.
  intros Hwf _ Hval _. exact (filters_keep_sample_range sel im Hwf Hval).
Qed.

Lemma X6_sample_range_kept_witness :
  ∃ out, apply_filter (AltoContraste "weighted" 128) scenario_image = Some out ∧
         image_in_range out.
Proof.
  apply (X6_sample_range_kept (AltoContraste "weighted" 128) scenario_image).
  - concrete_image.
  - repeat constructor; unfold sample; lia.
  - simpl. split; [right; reflexivity | lia].
  - discriminate.
Defined.

(** ** Images without pixels *)

Lemma empty_image_unique im out :
  image_shape im → image_shape out →
  width out = width im → height out = height im →
  width im = 0%nat ∨ height im = 0%nat →
  out = im.
Proof.
  intros Hwf Hwfo Hw Hh Hempty.
  apply image_eq_pointwise; try assumption. intros x y Hx Hy. lia.
Qed.

(** X17: on an image of width 0 or height 0 every filter call, except a
    mosaic with block size 0, returns the image as it is. *)
Theorem X17_empty_image_unchanged (sel : selected_filter) (im : Image) :
  wf_image im → width im = 0%nat ∨ height im = 0%nat →
  sel ≠ Mosaico 0 →
  apply_filter sel im = Some im.
Proof.
  intros Hwf Hempty Hsel.
  pose proof (proj1 Hwf) as Hsh.
  assert (Hno : ∀ x y p, getpixel im x y = Some p → False).
  { intros x y p Hp. destruct (getpixel_Some im x y p Hsh Hp). lia. }
  assert (Hgray : ∀ m, grayscale_filter im m = Some im).
  { intros m. destruct (grayscale_filter_pixels im m Hsh)
      as (out & Hout & Hw & Hh & Hwfo & _).
    - intros x y p Hp. destruct (Hno x y p Hp).
    - rewrite Hout. f_equal.
      apply empty_image_unique; [exact Hsh | apply Hwfo | assumption..]. }
  destruct sel as [bs|m|m t| |channel|delta]; simpl.
  - destruct (mosaic_filter_pixels_are im bs Hwf)
      as (out & Hout & Hw & Hh & Hwfo & _).
    { destruct bs; [congruence|lia]. }
    rewrite Hout. f_equal. apply empty_image_unique; assumption.
  - apply Hgray.
  - rewrite (high_contrast_filter_map im m t im (Hgray m) Hsh). f_equal.
    apply map_image_id. intros x y p Hp. destruct (Hno x y p Hp).
  - rewrite (negative_filter_map im Hwf). f_equal.
    apply map_image_id. intros x y p Hp. destruct (Hno x y p Hp).
  - rewrite (rgb_filter_channel_only_map im channel Hwf). f_equal.
    apply map_image_id. intros x y p Hp. destruct (Hno x y p Hp).
  - rewrite (brightness_filter_map im delta Hsh). f_equal.
    apply map_image_id. intros x y p Hp. destruct (Hno x y p Hp).
Qed.

Lemma X17_empty_image_unchanged_witness :
  apply_filter (TonoDeGris "weighted") (mkImage 3 0 [])
  = Some (mkImage 3 0 []).
Proof.
  apply (X17_empty_image_unchanged (TonoDeGris "weighted") (mkImage 3 0 [])).
  - split; [split; [reflexivity | constructor] | constructor].
  - right. reflexivity.
  - discriminate.
Defined.

(** ** The range of the weighted gray value *)

Module WeightedBound.

(** Not negative and below 281. *)
Definition below_281 (x : float) : bool :=
  PrimFloat.leb 0 x && PrimFloat.ltb x 281.

Definition all_below_281 (pr pg pb : list float) : bool :=
  forallb (λ x, forallb (λ y, forallb (λ z,
    below_281 (PrimFloat.add (PrimFloat.add x y) z)) pb) pg) pr.

Lemma digits2_pos_bound m : Z.pos m < 2 ^ Z.pos (digits2_pos m).
Proof.
  induction m as [m IH|m IH|]; simpl digits2_pos.
  - rewrite Pos2Z.inj_succ, Z.pow_succ_r by lia. lia.
  - rewrite Pos2Z.inj_succ, Z.pow_succ_r by lia. lia.
  - reflexivity.
Qed.

Lemma div_below_281 (a : Z) :
  0 <= a < 4943404278480896 → 0 <= a / 17592186044416 <= 280.
Proof.
  intros Ha. split; [apply Z.div_pos; lia|].
  assert (a / 17592186044416 < 281); [|lia].
  apply Z.div_lt_upper_bound; lia.
Qed.

Lemma div_below_256 (a p : Z) :
  0 <= a < 9007199254740992 → 35184372088832 <= p → 0 <= a / p <= 280.
Proof.
  intros Ha Hp. split; [apply Z.div_pos; lia|].
  assert (a / p <= a / 35184372088832) by (apply Z.div_le_compat_l; lia).
  assert (a / 35184372088832 < 256); [|lia].
  apply Z.div_lt_upper_bound; lia.
Qed.

(** The truncation of a float in that band lies between 0 and 280. *)
Lemma below_281_trunc x :
  below_281 x = true → ∃ v, int_of_float x = Some v ∧ 0 <= v <= 280.
Proof.
  unfold below_281.
  rewrite andb_true_iff, FloatAxioms.leb_spec, FloatAxioms.ltb_spec.
  pose proof (FloatAxioms.Prim2SF_valid x) as Hvalid.
  unfold int_of_float.
  replace (Prim2SF 0) with (S754_zero false) by (vm_compute; reflexivity).
  replace (Prim2SF 281)
    with (S754_finite false 4943404278480896 (-44))
    by (vm_compute; reflexivity).
  destruct (Prim2SF x) as [s|s| |s m e]; intros [H0 H1].
  - exists 0. split; [reflexivity|]. split; [reflexivity|discriminate].
  - destruct s; discriminate.
  - discriminate.
  - destruct s; [discriminate|].
    unfold SFltb, SFcompare in H1.
    unfold valid_binary, bounded, canonical_mantissa, fexp, emin, prec, emax
      in Hvalid.
    apply andb_true_iff in Hvalid as [Hcan _]. apply Z.eqb_eq in Hcan.
    pose proof (digits2_pos_bound m) as Hm.
    destruct (Z.compare_spec e (-44)) as [He|He|He]; [| |discriminate].
    + subst e. rewrite Pos.compare_cont_spec in H1.
      destruct (Pos.compare_spec m 4943404278480896) as [|Hlt|];
        try discriminate.
      eexists. split; [reflexivity|].
      replace (0 <=? -44) with false by reflexivity. cbv iota.
      replace (2 ^ (- -44)) with 17592186044416 by (vm_compute; reflexivity).
      apply div_below_281. split; [apply Pos2Z.is_nonneg | exact Hlt].
    + assert (Hdig : Z.pos (digits2_pos m) <= 53) by (clear - Hcan; lia).
      assert (Hm53 : Z.pos m < 2 ^ 53).
      { eapply Z.lt_le_trans; [exact Hm|].
        apply Z.pow_le_mono_r; [reflexivity | exact Hdig]. }
      assert (H45 : 2 ^ 45 <= 2 ^ (- e)).
      { apply Z.pow_le_mono_r; [reflexivity | clear - He; lia]. }
      replace (2 ^ 53) with 9007199254740992 in Hm53
        by (vm_compute; reflexivity).
      replace (2 ^ 45) with 35184372088832 in H45
        by (vm_compute; reflexivity).
      eexists. split; [reflexivity|].
      destruct (Z.leb_spec 0 e) as [Hpos|_]; [clear - He Hpos; lia|].
      apply div_below_256; [|exact H45].
      split; [apply Pos2Z.is_nonneg | exact Hm53].
Qed.

Lemma all_below_281_In pr pg pb x y z :
  all_below_281 pr pg pb = true → In x pr → In y pg → In z pb →
  below_281 (PrimFloat.add (PrimFloat.add x y) z) = true.
Proof.
  unfold all_below_281. intros H Hx Hy Hz.
  rewrite forallb_forall in H. specialize (H x Hx).
  rewrite forallb_forall in H. specialize (H y Hy).
  rewrite forallb_forall in H. exact (H z Hz).
Qed.

(** All 256 * 256 * 256 sums, by evaluation. *)
Lemma all_sums_below_281 :
  all_below_281 (WeightedFloat.products 0.3%float)
                (WeightedFloat.products 0.7%float)
                (WeightedFloat.products 0.1%float) = true.
Proof. vm_compute. reflexivity. Qed.

Lemma weighted_sum_below_281 r g b :
  sample r → sample g → sample b → below_281 (weighted_sum r g b) = true.
Proof.
  intros Hr Hg Hb. unfold weighted_sum.
  exact (all_below_281_In _ _ _ _ _ _ all_sums_below_281
           (WeightedFloat.in_products _ r Hr)
           (WeightedFloat.in_products _ g Hg)
           (WeightedFloat.in_products _ b Hb)).
Qed.

End WeightedBound.

(** X7: on 8-bit samples the weighted gray value lies between 0 and 280;
    it exceeds 255 on some pixels, white among them, where it is 280. *)
Theorem X7_weighted_gray_bounds (r g b : Z) :
  sample r → sample g → sample b →
  (∃ v, gray_value "weighted" r g b = Some v ∧ 0 <= v <= 280) ∧
  gray_value "weighted" 255 255 255 = Some 280.
Proof.
  intros Hr Hg Hb. split; [|vm_compute; reflexivity].
  rewrite gray_value_not_average by discriminate.
  apply WeightedBound.below_281_trunc.
  apply WeightedBound.weighted_sum_below_281; assumption.
Qed.

Lemma X7_weighted_gray_bounds_witness :
  (∃ v, gray_value "weighted" 200 100 50 = Some v ∧ 0 <= v <= 280) ∧
  gray_value "weighted" 255 255 255 = Some 280.
Proof.
  apply (X7_weighted_gray_bounds 200 100 50); unfold sample; lia.
Defined.

(** ** The entry point *)

Module Main.

(** Lines 196-203: the choices of the select box. *)
Definition filter_options : list string :=
  ["Mosaico"; "Tono de gris"; "Alto contraste"; "Inverso"; "Filtro RGB";
   "Brillo"].

(** What the widgets of the sidebar return: the select box, the number
    input, the radio of the gray method, the threshold slider, the radio
    of the channel and the brightness slider. *)
Record widgets : Type := mkWidgets {
  selectbox : string;
  number_input : nat;
  grayscale_choice : string;
  threshold_slider : Z;
  rgb_channel : string;
  brightness_slider : Z
}.

(** The parameters [main] holds once the sidebar is drawn. *)
Record parameters : Type := mkParameters {
  block_size : nat;
  grayscale_method : string;
  high_contrast_threshold : Z;
  rgb_choice : string;
  brightness_delta : Z
}.

(** Lines 209-213. *)
Definition default_parameters : parameters :=
  mkParameters 10 "average" 128 "red" 0.

(** Lines 233-236 and 247-250. *)
Definition method_of_choice (choice : string) : string :=
  if bool_decide (choice = "(R+G+B)/3") then "average" else "weighted".

(** Lines 274-279. *)
Definition channel_of_label (label : string) : string :=
  if bool_decide (label = "Rojo") then "red"
  else if bool_decide (label = "Verde") then "green"
  else "blue".

(** Lines 215-296: only the widgets of the selected filter are read; the
    other parameters keep their defaults. *)
Definition read_parameters (w : widgets) : parameters :=
  let d := default_parameters in
  if bool_decide (selectbox w = "Mosaico") then
    mkParameters (number_input w) (grayscale_method d)
      (high_contrast_threshold d) (rgb_choice d) (brightness_delta d)
  else if bool_decide (selectbox w = "Tono de gris") then
    mkParameters (block_size d) (method_of_choice (grayscale_choice w))
      (high_contrast_threshold d) (rgb_choice d) (brightness_delta d)
  else if bool_decide (selectbox w = "Alto contraste") then
    mkParameters (block_size d) (method_of_choice (grayscale_choice w))
      (threshold_slider w) (rgb_choice d) (brightness_delta d)
  else if bool_decide (selectbox w = "Inverso") then d
  else if bool_decide (selectbox w = "Filtro RGB") then
    mkParameters (block_size d) (grayscale_method d)
      (high_contrast_threshold d) (channel_of_label (rgb_channel w))
      (brightness_delta d)
  else if bool_decide (selectbox w = "Brillo") then
    mkParameters (block_size d) (grayscale_method d)
      (high_contrast_threshold d) (rgb_choice d) (brightness_slider w)
  else d.

(** Lines 316-366: the filter call of the selected branch; with no branch
    taken [result_image] stays unbound and line 373 raises. *)
Definition result_image (selected : string) (p : parameters)
    (original_image : Image) : option Image :=
  if bool_decide (selected = "Mosaico") then
    mosaic_filter original_image (block_size p)
  else if bool_decide (selected = "Tono de gris") then
    grayscale_filter original_image (grayscale_method p)
  else if bool_decide (selected = "Alto contraste") then
    high_contrast_filter original_image (grayscale_method p)
      (high_contrast_threshold p)
  else if bool_decide (selected = "Inverso") then
    negative_filter original_image
  else if bool_decide (selected = "Filtro RGB") then
    rgb_filter_channel_only original_image (rgb_choice p)
  else if bool_decide (selected = "Brillo") then
    brightness_filter original_image (brightness_delta p)
  else None.

(** Lines 374-381. *)
Definition file_names (p : parameters) : gmap string string :=
  {[ "Mosaico" := "imagen_mosaico.png";
     "Tono de gris" := "imagen_gris.png";
     "Alto contraste" := "imagen_alto_contraste.png";
     "Inverso" := "imagen_negativo.png";
     "Filtro RGB" := "imagen_" +:+ rgb_choice p +:+ ".png";
     "Brillo" := "imagen_brillo.png" ]}.

(** Line 385: [file_names.get(selected_filter, "imagen_filtrada.png")]. *)
Definition download_name (selected : string) (p : parameters) : string :=
  default "imagen_filtrada.png" (file_names p !! selected).

(** The widget values the sidebar can return: a choice of the select box
    and values inside the bounds of the number input and of the sliders;
    the radio labels are free, the code treating every label but the
    first ones as the last. *)
Definition in_bounds (w : widgets) : Prop :=
  selectbox w ∈ filter_options ∧
  (1 ≤ number_input w ≤ 100)%nat ∧
  0 <= threshold_slider w <= 255 ∧
  -255 <= brightness_slider w <= 255.

(** The call [main] makes, as a value of [selected_filter]. *)
Definition selection (w : widgets) : option selected_filter :=
  let p := read_parameters w in
  if bool_decide (selectbox w = "Mosaico") then Some (Mosaico (block_size p))
  else if bool_decide (selectbox w = "Tono de gris") then
    Some (TonoDeGris (grayscale_method p))
  else if bool_decide (selectbox w = "Alto contraste") then
    Some (AltoContraste (grayscale_method p) (high_contrast_threshold p))
  else if bool_decide (selectbox w = "Inverso") then Some Inverso
  else if bool_decide (selectbox w = "Filtro RGB") then
    Some (FiltroRGB (rgb_choice p))
  else if bool_decide (selectbox w = "Brillo") then
    Some (Brillo (brightness_delta p))
  else None.

End Main.

Lemma method_of_choice_valid choice :
  Main.method_of_choice choice = "average" ∨
  Main.method_of_choice choice = "weighted".
Proof. unfold Main.method_of_choice. case_bool_decide; auto. Qed.

Lemma channel_of_label_valid label :
  Main.channel_of_label label = "red" ∨
  Main.channel_of_label label = "green" ∨
  Main.channel_of_label label = "blue".
Proof. unfold Main.channel_of_label. repeat case_bool_decide; auto. Qed.

Lemma filter_options_cases (P : string → Prop) s :
  s ∈ Main.filter_options →
  P "Mosaico" → P "Tono de gris" → P "Alto contraste" → P "Inverso" →
  P "Filtro RGB" → P "Brillo" → P s.
Proof.
  unfold Main.filter_options. intros Hs.
  repeat (apply elem_of_cons in Hs as [->|Hs]; [intros; assumption|]).
  apply elem_of_nil in Hs. destruct Hs.
Qed.

(** Every validated call on an image of 8-bit samples returns. *)
Lemma apply_filter_returns sel im :
  wf_image im → validated sel →
  ∃ out, apply_filter sel im = Some out.
Proof.
  intros Hwf Hval.
  destruct (apply_filter_wf sel im Hwf Hval) as (out & Hout & _).
  exists out. exact Hout.
Qed.

(** The six entries of the table of download names. *)
Lemma file_names_lookup p :
  Main.file_names p !! "Mosaico" = Some "imagen_mosaico.png" ∧
  Main.file_names p !! "Tono de gris" = Some "imagen_gris.png" ∧
  Main.file_names p !! "Alto contraste" = Some "imagen_alto_contraste.png" ∧
  Main.file_names p !! "Inverso" = Some "imagen_negativo.png" ∧
  Main.file_names p !! "Filtro RGB"
  = Some ("imagen_" +:+ Main.rgb_choice p +:+ ".png") ∧
  Main.file_names p !! "Brillo" = Some "imagen_brillo.png".
Proof. destruct p as [bs m t rgb d]. repeat split; vm_compute; reflexivity. Qed.

(** X18: every choice of the select box has an entry in the table of
    download names, so the default name "imagen_filtrada.png" is never
    given; and with a channel among red, green and blue two different
    choices never get the same name. *)
Theorem X18_download_names (p : Main.parameters) (s1 s2 : string) :
  s1 ∈ Main.filter_options → s2 ∈ Main.filter_options →
  Main.rgb_choice p = "red" ∨ Main.rgb_choice p = "green" ∨
  Main.rgb_choice p = "blue" →
  Main.file_names p !! s1 = Some (Main.download_name s1 p) ∧
  Main.download_name s1 p ≠ "imagen_filtrada.png" ∧
  (Main.download_name s1 p = Main.download_name s2 p → s1 = s2).
Proof.
  intros H1 H2 Hrgb.
  destruct (file_names_lookup p) as (E1 & E2 & E3 & E4 & E5 & E6).
  unfold Main.download_name.
  assert (Hrgb' : ∃ c, Main.file_names p !! "Filtro RGB" = Some c ∧
     (c = "imagen_red.png" ∨ c = "imagen_green.png" ∨ c = "imagen_blue.png")).
  { eexists. split; [exact E5|].
    destruct Hrgb as [->|[->| ->]]; auto. }
  destruct Hrgb' as (c & E5' & Hc). clear E5 Hrgb.
  revert s2 H2. pattern s1. apply filter_options_cases; [exact H1|..];
    intros s2 H2; pattern s2; apply filter_options_cases; try exact H2;
    rewrite ?E1, ?E2, ?E3, ?E4, ?E5', ?E6; simpl;
    (split; [reflexivity|]);
    destruct Hc as [->|[->| ->]]; split; congruence.
Qed.

Lemma X18_download_names_witness :
  Main.file_names Main.default_parameters !! "Filtro RGB"
  = Some (Main.download_name "Filtro RGB" Main.default_parameters) ∧
  Main.download_name "Filtro RGB" Main.default_parameters
  ≠ "imagen_filtrada.png" ∧
  (Main.download_name "Filtro RGB" Main.default_parameters
   = Main.download_name "Brillo" Main.default_parameters →
   "Filtro RGB" = "Brillo").
Proof.
  apply (X18_download_names Main.default_parameters "Filtro RGB" "Brillo").
  - unfold Main.filter_options. set_solver.
  - unfold Main.filter_options. set_solver.
  - left. reflexivity.
Defined.

(** X19: whatever the widgets return within their bounds, and whatever
    the labels of the radios, [main] calls the selected filter with
    validated parameters: the method is "average" or "weighted" and the
    channel is "red", "green" or "blue", so the last branch of the channel
    filter is never reached from [main]; and on an image of 8-bit samples
    the call returns an image. *)
Theorem X19_main_calls_are_validated (w : Main.widgets) (im : Image) :
  Main.in_bounds w → wf_image im → image_in_range im →
  ∃ sel out,
    Main.selection w = Some sel ∧ validated sel ∧
    Main.result_image (Main.selectbox w) (Main.read_parameters w) im
    = apply_filter sel im ∧
    apply_filter sel im = Some out.
Proof.
  intros (Hsel & Hn & Ht & Hb) Hwf Hrange.
  assert (Hcall : ∃ sel,
    Main.selection w = Some sel ∧ validated sel ∧
    Main.result_image (Main.selectbox w) (Main.read_parameters w) im
    = apply_filter sel im).
  { destruct w as [sb n gc t rc b]. simpl in *.
    pose proof (method_of_choice_valid gc) as Hm.
    pose proof (channel_of_label_valid rc) as Hc.
    pattern sb. apply filter_options_cases; [exact Hsel|..];
      unfold Main.selection, Main.result_image, Main.read_parameters;
      simpl Main.selectbox;
      repeat (case_bool_decide; try discriminate; try congruence);
      eexists; (split; [reflexivity|]); (split; [|reflexivity]); simpl;
      auto. }
  destruct Hcall as (sel & Hs & Hval & Hres).
  destruct (apply_filter_returns sel im Hwf Hval) as (out & Hout).
  exists sel, out. auto.
Qed.

Lemma X19_main_calls_are_validated_witness :
  ∃ sel out,
    Main.selection (Main.mkWidgets "Filtro RGB" 10 "(R+G+B)/3" 128 "Azul" 0)
    = Some sel ∧ validated sel ∧
    Main.result_image
      (Main.selectbox
         (Main.mkWidgets "Filtro RGB" 10 "(R+G+B)/3" 128 "Azul" 0))
      (Main.read_parameters
         (Main.mkWidgets "Filtro RGB" 10 "(R+G+B)/3" 128 "Azul" 0))
      scenario_image
    = apply_filter sel scenario_image ∧
    apply_filter sel scenario_image = Some out.
Proof.
  apply (X19_main_calls_are_validated
           (Main.mkWidgets "Filtro RGB" 10 "(R+G+B)/3" 128 "Azul" 0)
           scenario_image).
  - split; [unfold Main.filter_options; simpl; set_solver|].
    simpl. lia.
  - concrete_image.
  - repeat constructor; unfold sample; lia.
Defined.
